(** * ppv EPG generator: the overlap cleaner, the guide builder and the
      XMLTV emitter of [src/epg.py], embedded and verified.

    Python values are modelled as the code uses them: Unix instants are
    unbounded integers ([Z]), strings are byte strings ([string], UTF-8,
    whose bytewise order is Python's code-point order), optional JSON
    fields are [option], a programme dict is a record with one field per
    key, [by_chan] is an association list in insertion order, and
    [list.sort] / [sorted] are the stable sort on a key. *)

From Stdlib Require Import ZArith Lia String Ascii List DecimalString.
From Stdlib Require DecimalPos DecimalZ.
From stdpp Require Import base tactics option list sorting strings gmap.

Local Open Scope string_scope.
Local Open Scope list_scope.
Local Open Scope Z_scope.

(** ** Data model *)

(** An upstream [id] is a JSON scalar. *)
Inductive scalar :=
  | SInt (n : Z)
  | SStr (s : string).

(** A programme dict, with the keys [build_programs] creates. *)
Record programme := Programme {
  channel : string;
  start : Z;
  stop : Z;
  title : string;
  tag : option string;
  category : option string;
  poster : option string;
  iframe : option string;
  viewers : option Z;
  id : option scalar;
  m3u8 : option string
}.

(** [cur["stop"] = v] and [cur["title"] = v] on a dict value. *)
Definition set_stop (p : programme) (v : Z) : programme :=
  Programme (channel p) (start p) v (title p) (tag p) (category p)
            (poster p) (iframe p) (viewers p) (id p) (m3u8 p).

Definition set_title (p : programme) (v : string) : programme :=
  Programme (channel p) (start p) (stop p) v (tag p) (category p)
            (poster p) (iframe p) (viewers p) (id p) (m3u8 p).

(** ** Python's stable sort *)

Section StableSort.
Context {A : Type}.
Variable le : A -> A -> bool.

(** [x] goes in front of the first element that is not smaller: an
    element keeps its place before later elements with an equal key. *)
Fixpoint insert_by (x : A) (l : list A) : list A :=
  match l with
  | [] => [x]
  | y :: l' => if le x y then x :: l else y :: insert_by x l'
  end.

Definition sort_by (l : list A) : list A := foldr insert_by [] l.

(** The order the comparison decides. *)
Definition le_rel (x y : A) : Prop := le x y = true.
End StableSort.

(** [key=lambda x: x["start"]] *)
Definition le_start (x y : programme) : bool := start x <=? start y.

(** [key=lambda x: (x["channel"], x["start"])]: tuples compare
    lexicographically. *)
Definition le_channel_start (x y : programme) : bool :=
  match String.compare (channel x) (channel y) with
  | Lt => true
  | Eq => start x <=? start y
  | Gt => false
  end.

(** ** clean_overlaps *)

(** [by_chan.setdefault(k, []).append(p)] on a dict in insertion order.
    The elements are programme dicts, or references to them. *)
Fixpoint setdefault_append {A} (by_chan : list (string * list A))
    (k : string) (p : A) : list (string * list A) :=
  match by_chan with
  | [] => [(k, [p])]
  | (k', l) :: rest =>
      if String.eqb k' k then (k', l ++ [p]) :: rest
      else (k', l) :: setdefault_append rest k p
  end.

Definition group_by_key {A} (key : A -> string) (programmes : list A)
    : list (string * list A) :=
  fold_left (fun by_chan p => setdefault_append by_chan (key p) p)
            programmes [].

Definition group_by_channel (programmes : list programme)
    : list (string * list programme) :=
  group_by_key channel programmes.

(** The merge branch: [cur["stop"] = max(cur["stop"], p["stop"])], then
    [cur["title"] = f"{cur['title']} / {p['title']}"]. *)
Definition absorb (cur p : programme) : programme :=
  set_title (set_stop cur (Z.max (stop cur) (stop p)))
            (title cur +:+ " / " +:+ title p).

(** One iteration of [for p in plist], on the pair [(merged, cur)]. *)
Definition clean_step (strategy : string)
    (st : list programme * option programme) (p : programme)
    : list programme * option programme :=
  let '(merged, cur) := st in
  match cur with
  | None => (merged, Some p)
  | Some c =>
      if start p <? stop c then
        if String.eqb strategy "trim" then
          if start p <=? start c then (merged, Some p)
          else (merged ++ [set_stop c (start p)], Some p)
        else
          (merged, Some (absorb c p))
      else (merged ++ [c], Some p)
  end.

(** The body of [for chan, plist in by_chan.items()]: the list [merged]
    that is appended to [cleaned]. *)
Definition clean_channel (strategy : string) (plist : list programme)
    : list programme :=
  let '(merged, cur) :=
    fold_left (clean_step strategy) (sort_by le_start plist) ([], None) in
  match cur with
  | Some c => merged ++ [c]
  | None => merged
  end.

Definition clean_overlaps (programmes : list programme) (strategy : string)
    : list programme :=
  let by_chan := group_by_channel programmes in
  let cleaned :=
    fold_left (fun cleaned '(chan, plist) =>
                 cleaned ++ clean_channel strategy plist)
              by_chan [] in
  sort_by le_channel_start cleaned.

(** A programme with only the fields the cleaner reads. *)
Definition prog (ch : string) (s e : Z) (t : string) : programme :=
  Programme ch s e t None None None None None None None.

(** ** clean_overlaps on the heap *)

(** The same function with the programme dicts as mutable objects: a list
    holds references, [p.copy()] allocates a new dict, and
    [cur["stop"] = v] writes into the dict that [cur] refers to. [None]
    stands for a read of a reference that is not allocated. *)

Definition loc := positive.

Abbreviation heap := (gmap loc programme).

#[global] Instance programme_inhabited : Inhabited programme :=
  populate (Programme "" 0 0 "" None None None None None None None).

Definition M (A : Type) : Type := heap -> option (A * heap).

Definition ret {A} (a : A) : M A := fun h => Some (a, h).

Definition bind {A B} (m : M A) (f : A -> M B) : M B :=
  fun h =>
    match m h with
    | Some (a, h') => f a h'
    | None => None
    end.

Notation "'let*' x ':=' m 'in' k" := (bind m (fun x => k))
  (at level 10, x pattern, m at level 100, k at level 200).

Definition get_heap : M heap := fun h => Some (h, h).

(** [p[...]]: read the dict behind a reference. *)
Definition dict_get (l : loc) : M programme :=
  fun h =>
    match h !! l with
    | Some v => Some (v, h)
    | None => None
    end.

(** [p.copy()]: a new dict with the same items. *)
Definition dict_copy (l : loc) : M loc :=
  fun h =>
    match h !! l with
    | Some v => let l' := fresh (dom h) in Some (l', <[l' := v]> h)
    | None => None
    end.

(** [cur["stop"] = v] and [cur["title"] = v]. *)
Definition dict_set_stop (l : loc) (v : Z) : M unit :=
  fun h =>
    match h !! l with
    | Some p => Some (tt, <[l := set_stop p v]> h)
    | None => None
    end.

Definition dict_set_title (l : loc) (v : string) : M unit :=
  fun h =>
    match h !! l with
    | Some p => Some (tt, <[l := set_title p v]> h)
    | None => None
    end.

Fixpoint foldM {A B} (f : A -> B -> M A) (l : list B) (a : A) : M A :=
  match l with
  | [] => ret a
  | x :: l' => let* a' := f a x in foldM f l' a'
  end.

Definition clean_step_h (strategy : string)
    (st : list loc * option loc) (p : loc) : M (list loc * option loc) :=
  let '(merged, cur) := st in
  match cur with
  | None => let* c := dict_copy p in ret (merged, Some c)
  | Some c =>
      let* pv := dict_get p in
      let* cv := dict_get c in
      if start pv <? stop cv then
        if String.eqb strategy "trim" then
          if start pv <=? start cv then
            let* c' := dict_copy p in ret (merged, Some c')
          else
            let* _ := dict_set_stop c (start pv) in
            let* c' := dict_copy p in ret (merged ++ [c], Some c')
        else
          let* _ := dict_set_stop c (Z.max (stop cv) (stop pv)) in
          let* cv' := dict_get c in
          let* _ := dict_set_title c (title cv' +:+ " / " +:+ title pv) in
          ret (merged, Some c)
      else
        let* c' := dict_copy p in ret (merged ++ [c], Some c')
  end.

Definition clean_channel_h (strategy : string) (plist : list loc)
    : M (list loc) :=
  let* h := get_heap in
  let plist := sort_by (fun x y => le_start (h !!! x) (h !!! y)) plist in
  let* (merged, cur) := foldM (clean_step_h strategy) plist ([], None) in
  ret (match cur with
       | Some c => merged ++ [c]
       | None => merged
       end).

Definition clean_overlaps_h (programmes : list loc) (strategy : string)
    : M (list loc) :=
  let* h := get_heap in
  let by_chan := group_by_key (fun p => channel (h !!! p)) programmes in
  let* cleaned :=
    foldM (fun cleaned (entry : string * list loc) =>
             let* merged := clean_channel_h strategy entry.2 in
             ret (cleaned ++ merged))
          by_chan [] in
  let* h' := get_heap in
  ret (sort_by (fun x y => le_channel_start (h' !!! x) (h' !!! y)) cleaned).

(** ** Text of Python values *)

(** [str(n)] for an int. *)
Definition str_int (n : Z) : string := NilZero.string_of_int (Z.to_int n).

Definition str_scalar (v : scalar) : string :=
  match v with
  | SInt n => str_int n
  | SStr s => s
  end.

(** [safe_text(v)]: the empty string for [None], [str(v)] otherwise. *)
Definition safe_text {A} (str : A -> string) (v : option A) : string :=
  match v with
  | None => ""
  | Some x => str x
  end.

(** Truth value of an optional string: [None] and the empty string are
    false. *)
Definition truthy (v : option string) : bool :=
  match v with
  | Some s => negb (String.eqb s "")
  | None => false
  end.

(** [s.zfill(w)] on a string of digits, which is what [{n:02d}] and
    [strftime] produce for a non-negative number. *)
Definition zfill (w : nat) (s : string) : string :=
  String.concat "" (replicate (w - String.length s) "0") +:+ s.

(** ** Time formatting *)

(** A [ZoneInfo] gives the UTC offset, in seconds, in force at a UTC
    instant. *)
Definition ZoneInfo := Z -> Z.

(** The proleptic Gregorian calendar of [datetime]. *)
Definition is_leap (y : Z) : bool :=
  (y mod 4 =? 0) && (negb (y mod 100 =? 0) || (y mod 400 =? 0)).

Definition days_before_year (y : Z) : Z :=
  let y := y - 1 in y * 365 + y / 4 - y / 100 + y / 400.

Definition DAYS_IN_MONTH : list Z :=
  [-1; 31; 28; 31; 30; 31; 30; 31; 31; 30; 31; 30; 31].

Definition DAYS_BEFORE_MONTH : list Z :=
  [-1; 0; 31; 59; 90; 120; 151; 181; 212; 243; 273; 304; 334].

Definition days_in_month (y m : Z) : Z :=
  if (m =? 2) && is_leap y then 29 else nth (Z.to_nat m) DAYS_IN_MONTH 0.

Definition days_before_month (y m : Z) : Z :=
  nth (Z.to_nat m) DAYS_BEFORE_MONTH 0
  + (if (2 <? m) && is_leap y then 1 else 0).

(** Ordinal of a date, 0001-01-01 being day 1. *)
Definition ymd2ord (y m d : Z) : Z :=
  days_before_year y + days_before_month y m + d.

(** The date of an ordinal. *)
Definition ord2ymd (n : Z) : Z * Z * Z :=
  let n := n - 1 in
  let n400 := n / 146097 in
  let n := n mod 146097 in
  let year := n400 * 400 + 1 in
  let n100 := n / 36524 in
  let n := n mod 36524 in
  let n4 := n / 1461 in
  let n := n mod 1461 in
  let n1 := n / 365 in
  let n := n mod 365 in
  let year := year + n100 * 100 + n4 * 4 + n1 in
  if (n1 =? 4) || (n100 =? 4) then (year - 1, 12, 31)
  else
    let leapyear := (n1 =? 3) && (negb (n4 =? 24) || (n100 =? 3)) in
    let month := (n + 50) / 32 in
    let preceding :=
      nth (Z.to_nat month) DAYS_BEFORE_MONTH 0
      + (if (2 <? month) && leapyear then 1 else 0) in
    if n <? preceding then
      let month := month - 1 in
      let preceding :=
        preceding - (nth (Z.to_nat month) DAYS_IN_MONTH 0
                     + (if (month =? 2) && leapyear then 1 else 0)) in
      (year, month, n - preceding + 1)
    else (year, month, n - preceding + 1).

(** An aware [datetime]: the wall-clock fields and the UTC offset. *)
Record datetime := Datetime {
  year : Z;
  month : Z;
  day : Z;
  hour : Z;
  minute : Z;
  second : Z;
  utcoffset : Z
}.

(** Ordinal of 1970-01-01, and the largest ordinal (9999-12-31). *)
Definition EPOCH_ORD : Z := 719163.
Definition MAXORD : Z := 3652059.

(** The wall clock [secs] seconds after 1970-01-01T00:00:00, or [None]
    where [datetime] raises because the year is outside 1..9999. *)
Definition datetime_of_seconds (secs off : Z) : option datetime :=
  let ord := EPOCH_ORD + secs / 86400 in
  if (1 <=? ord) && (ord <=? MAXORD) then
    let '(y, m, d) := ord2ymd ord in
    let sod := secs mod 86400 in
    Some (Datetime y m d (sod / 3600) (sod mod 3600 / 60) (sod mod 60) off)
  else None.

(** [datetime.fromtimestamp(ts, timezone.utc).astimezone(tz)] *)
Definition dt_from_ts (ts : Z) (tz : ZoneInfo) : option datetime :=
  match datetime_of_seconds ts 0 with
  | None => None
  | Some _ => datetime_of_seconds (ts + tz ts) (tz ts)
  end.

(** [dt.strftime("%Y%m%d%H%M%S")] *)
Definition strftime_YmdHMS (dt : datetime) : string :=
  zfill 4 (str_int (year dt)) +:+ zfill 2 (str_int (month dt))
  +:+ zfill 2 (str_int (day dt)) +:+ zfill 2 (str_int (hour dt))
  +:+ zfill 2 (str_int (minute dt)) +:+ zfill 2 (str_int (second dt)).

Definition xmltv_time (ts : Z) (tz : ZoneInfo) : option string :=
  match dt_from_ts ts tz with
  | None => None
  | Some dt =>
      let off := utcoffset dt in
      let minutes := off / 60 in
      let sign := if 0 <=? minutes then "+" else "-" in
      let hh := Z.abs minutes / 60 in
      let mm := Z.abs minutes mod 60 in
      Some (strftime_YmdHMS dt
            +:+ " " +:+ sign +:+ zfill 2 (str_int hh) +:+ zfill 2 (str_int mm))
  end.

(** ** generate_xmltv *)

Module ET.
Inductive Element := mkElement {
  tag : string;
  attrib : list (string * string);
  text : option string;
  children : list Element
}.
End ET.

(** A value of the [channels] dict. *)
Record channel_meta := ChannelMeta {
  display : option string;
  icon : option string
}.

Definition channel_element (cid : string) (meta : channel_meta) : ET.Element :=
  ET.mkElement "channel" [("id", cid)] None
    (ET.mkElement "display-name" [] (Some (safe_text (fun s => s) (display meta))) []
     :: (if truthy (icon meta)
         then [ET.mkElement "icon" [("src", default "" (icon meta))] None []]
         else [])).

(** The separator literal of [desc.text = "...".join(desc_parts)], byte
    for byte as it stands in the source file: a space, the three characters
    U+00E2 U+20AC U+201D in UTF-8, a space. *)
Definition DESC_SEP : string :=
  string_of_list_ascii
    (map ascii_of_nat
         [32; 195; 162; 226; 130; 172; 226; 128; 157; 32]%nat).

Definition desc_parts (p : programme) : list string :=
  (if truthy (iframe p) then ["embed=" +:+ default "" (iframe p)] else [])
  ++ match viewers p with
     | Some v => ["viewers=" +:+ str_int v]
     | None => []
     end
  ++ (if truthy (poster p) then ["poster=" +:+ default "" (poster p)] else [])
  ++ (if truthy (m3u8 p) then ["hls=" +:+ default "" (m3u8 p)] else []).

Definition length_minutes (p : programme) : Z :=
  Z.max 0 ((stop p - start p) / 60).

(** The children of one [programme] element, in the order they are
    created. *)
Definition programme_children (p : programme) : list ET.Element :=
  [ET.mkElement "title" [("lang", "en")] (Some (title p)) []]
  ++ (if truthy (tag p)
      then [ET.mkElement "sub-title" [("lang", "en")]
                         (Some (safe_text (fun s => s) (tag p))) []]
      else [])
  ++ (if truthy (category p)
      then [ET.mkElement "category" [("lang", "en")]
                         (Some (safe_text (fun s => s) (category p))) []]
      else [])
  ++ [ET.mkElement "episode-num" [("system", "urn:stream-id")]
                   (Some (safe_text str_scalar (id p))) []]
  ++ [ET.mkElement "length" [("units", "minutes")]
                   (Some (str_int (length_minutes p))) []]
  ++ [ET.mkElement "desc" [("lang", "en")]
                   (Some (String.concat DESC_SEP (desc_parts p))) []]
  ++ (if truthy (poster p)
      then [ET.mkElement "icon" [("src", default "" (poster p))] None []]
      else [])
  ++ (if truthy (m3u8 p)
      then [ET.mkElement "url" [] (Some (default "" (m3u8 p))) []]
      else []).

(** One [programme] element; [None] where [xmltv_time] raises. *)
Definition programme_element (tz : ZoneInfo) (p : programme)
    : option ET.Element :=
  match xmltv_time (start p) tz, xmltv_time (stop p) tz with
  | Some t0, Some t1 =>
      Some (ET.mkElement "programme"
              [("start", t0); ("stop", t1); ("channel", channel p)] None
              (programme_children p))
  | _, _ => None
  end.

Definition generate_xmltv (channels : list (string * channel_meta))
    (programmes : list programme) (tz : ZoneInfo) : option ET.Element :=
  match mapM (programme_element tz) (sort_by le_channel_start programmes) with
  | Some progs =>
      Some (ET.mkElement "tv"
              [("source-info-name", "ppv.to");
               ("generator-info-name", "ppv_epg.py")] None
              (map (fun '(cid, meta) => channel_element cid meta) channels
               ++ progs))
  | None => None
  end.

(** ** build_programs *)

(** The upstream JSON: [{streams: [{streams: [<stream record> ...]} ...]}],
    every key optional. *)
Module Json.
Record stream := Stream {
  uri_name : option string;
  id : option scalar;
  poster : option string;
  tag : option string;
  category_name : option string;
  name : option string;
  starts_at : option Z;
  ends_at : option Z;
  iframe : option string;
  viewers : option Z
}.

Record category := Category {
  category_streams : option (list stream)
}.

Record data := Data {
  streams : option (list category)
}.
End Json.

(** [x or y] on strings, [x] optional. *)
Definition or_else (x : option string) (y : string) : string :=
  if truthy x then default "" x else y.

(** [f"{v}"] for an optional scalar: [None] prints as "None". *)
Definition format_scalar (v : option scalar) : string :=
  match v with
  | Some x => str_scalar x
  | None => "None"
  end.

(** [s.replace(a, b)] for single characters. *)
Fixpoint replace_char (a b : ascii) (s : string) : string :=
  match s with
  | EmptyString => EmptyString
  | String c s' => String (if Ascii.eqb c a then b else c) (replace_char a b s')
  end.

Definition chan_id_of (s : Json.stream) : string :=
  let uri := or_else (Json.uri_name s) ("id_" +:+ format_scalar (Json.id s)) in
  replace_char "/" "_" uri.

(** The programme built from a record that has both instants. *)
Definition programme_of (s : Json.stream) : option programme :=
  match Json.starts_at s, Json.ends_at s with
  | Some start, Some stop =>
      Some (Programme (chan_id_of s) start stop
              (or_else (Json.name s) ("stream_" +:+ format_scalar (Json.id s)))
              (Json.tag s) (Json.category_name s) (Json.poster s)
              (Json.iframe s) (Json.viewers s) (Json.id s) None)
  | _, _ => None
  end.

(** The body of the inner loop, on the pair [(channels, programmes)]. *)
Definition build_step
    (st : list (string * channel_meta) * list programme) (s : Json.stream)
    : list (string * channel_meta) * list programme :=
  let '(channels, programmes) := st in
  let chan_id := chan_id_of s in
  let channels :=
    if decide (chan_id ∈ channels.*1) then channels
    else channels ++
         [(chan_id,
           ChannelMeta
             (Some (or_else (Json.tag s)
                            (or_else (Json.category_name s) chan_id)))
             (Json.poster s))] in
  match programme_of s with
  | Some prog => (channels, programmes ++ [prog])
  | None => (channels, programmes)
  end.

Definition build_programs (data : Json.data) (tz : ZoneInfo)
    : list (string * channel_meta) * list programme :=
  fold_left
    (fun st category =>
       fold_left build_step (default [] (Json.category_streams category)) st)
    (default [] (Json.streams data)) ([], []).

(** ** Vocabulary of the statements *)

(** [s] is [w] decimal digits that denote [v]. *)
Definition is_digit (c : ascii) : bool :=
  (48 <=? nat_of_ascii c)%nat && (nat_of_ascii c <=? 57)%nat.

Fixpoint digits_value (s : string) (acc : Z) : option Z :=
  match s with
  | EmptyString => Some acc
  | String c s' =>
      if is_digit c
      then digits_value s' (10 * acc + (Z.of_nat (nat_of_ascii c) - 48))
      else None
  end.

Definition fixed_decimal (w : nat) (v : Z) (s : string) : bool :=
  (String.length s =? w)%nat &&
  match digits_value s 0 with
  | Some v' => v' =? v
  | None => false
  end.

(** [s] is the XMLTV rendering of the local wall-clock second [local]
    (seconds since 1970-01-01T00:00:00 on the local clock) in a zone whose
    UTC offset is [off] seconds: fourteen digits YYYYMMDDhhmmss that are a
    valid date and time and denote [local], a space, the sign of the
    offset, and the hours and minutes of the offset (its seconds, if any,
    dropped) as two digits each. *)
Definition xmltv_rendering (local off : Z) (s : string) : Prop :=
  exists y mo d hh mi ss oh om sY sMo sD sH sMi sS sign sOH sOM,
    s = sY +:+ sMo +:+ sD +:+ sH +:+ sMi +:+ sS
        +:+ " " +:+ sign +:+ sOH +:+ sOM /\
    fixed_decimal 4 y sY = true /\ fixed_decimal 2 mo sMo = true /\
    fixed_decimal 2 d sD = true /\ fixed_decimal 2 hh sH = true /\
    fixed_decimal 2 mi sMi = true /\ fixed_decimal 2 ss sS = true /\
    1 <= mo <= 12 /\ 1 <= d <= days_in_month y mo /\
    0 <= hh < 24 /\ 0 <= mi < 60 /\ 0 <= ss < 60 /\
    (ymd2ord y mo d - EPOCH_ORD) * 86400 + hh * 3600 + mi * 60 + ss = local /\
    (sign = "+" /\ 0 <= off \/ sign = "-" /\ off < 0) /\
    fixed_decimal 2 oh sOH = true /\ fixed_decimal 2 om sOM = true /\
    0 <= oh < 24 /\ 0 <= om < 60 /\
    (oh * 60 + om) * 60 <= Z.abs off < (oh * 60 + om + 1) * 60.

(** [P] holds on the [n] integers from [a] on. *)
Fixpoint all_from (P : Z -> bool) (n : nat) (a : Z) : bool :=
  match n with
  | O => true
  | S n' => if P a then all_from P n' (a + 1) else false
  end.

(** Day [r + 1] of the first 400-year cycle: its date is a valid date of
    the years 1..400, and it is the date of that ordinal. *)
Definition check_ord (r : Z) : bool :=
  let '(y, m, d) := ord2ymd (r + 1) in
  (1 <=? y) && (y <=? 400) && (1 <=? m) && (m <=? 12) &&
  (1 <=? d) && (d <=? days_in_month y m) &&
  (ymd2ord y m d =? r + 1) &&
  (days_before_year y <? r + 1) && (r + 1 <=? days_before_year (y + 1)).

(** The dict a reference points to. *)
Definition deref (h : heap) (l : loc) : programme := h !!! l.

(** While a channel is swept from heap [h0]: nothing allocated in [h0]
    has changed, and [merged] and [cur] are dicts allocated since, [cur]
    not among [merged]. *)
Definition sweep_inv (h0 h : heap) (st : list loc * option loc) : Prop :=
  h0 ⊆ h /\
  Forall (fun m => m ∈ dom h /\ (m ∉ dom h0)) st.1 /\
  (forall c, st.2 = Some c -> c ∈ dom h /\ (c ∉ dom h0) /\ (c ∉ st.1)).


(** All stream records of the input, in order. *)
Definition all_streams (data : Json.data) : list Json.stream :=
  concat (map (fun c => default [] (Json.category_streams c))
              (default [] (Json.streams data))).


(** The integer a decimal text denotes. *)
Definition int_of_text (s : string) : option Z :=
  Z.of_int <$> NilZero.int_of_string s.

(** The children of an element with a given tag. *)
Definition children_tagged (t : string) (l : list ET.Element)
    : list ET.Element :=
  filter (fun e => ET.tag e = t) l.

(** The separator the spec names: a space, an em-dash (U+2014 in UTF-8),
    a space. *)
Definition EM_DASH_SEP : string :=
  string_of_list_ascii (map ascii_of_nat [32; 226; 128; 148; 32]%nat).


(** The programmes of one channel. *)
Definition on_channel (c : string) (p : programme) : Prop := channel p = c.

#[global] Instance on_channel_dec c p : Decision (on_channel c p).
Proof. unfold on_channel. apply _. Defined.

(** [a] then [b] on a timeline: [b] starts no earlier than [a] starts,
    and no earlier than [a] stops. *)
Definition precedes (a b : programme) : Prop :=
  start a <= start b /\ stop a <= start b.

(** [bc] is the grouping of [ps]: one entry per channel that occurs, each
    holding that channel's programmes in their order in [ps]. *)
Definition grouped (ps : list programme)
    (bc : list (string * list programme)) : Prop :=
  NoDup bc.*1 /\
  Forall (fun kl => kl.2 = filter (on_channel kl.1) ps /\ kl.2 <> []) bc /\
  (forall p, p ∈ ps -> channel p ∈ bc.*1).

(** Two programmes overlap when their [start, stop) ranges share an
    instant. *)
Definition overlap (a b : programme) : Prop :=
  exists t, (start a <= t < stop a) /\ (start b <= t < stop b).

(** No two programmes of the same channel, at different places of the
    list, overlap. *)
Definition no_two_overlap (ps : list programme) : Prop :=
  forall i j a b,
    i <> j -> ps !! i = Some a -> ps !! j = Some b ->
    channel a = channel b -> ~ overlap a b.

(** ** Vocabulary of the further properties *)

(** [q] is [p] with, at most, its stop and its title rewritten. *)
Definition same_but_stop_title (p q : programme) : Prop :=
  q = set_title (set_stop p (stop q)) (title q).

(** The range of [q] contains the range of [p]. *)
Definition covers (q p : programme) : Prop :=
  start q <= start p /\ stop p <= stop q.

(** The value [build_programs] stores in [channels] for a record. *)
Definition meta_of (s : Json.stream) : channel_meta :=
  ChannelMeta
    (Some (or_else (Json.tag s) (or_else (Json.category_name s) (chan_id_of s))))
    (Json.poster s).

(** * Proofs *)

(** ** The stable sort *)

Section StableSortFacts.
Context {A : Type}.
Variable le : A -> A -> bool.

Local Abbreviation R := (le_rel le).

Hypothesis le_total : forall x y, le x y = true \/ le y x = true.
Hypothesis le_trans :
  forall x y z, le x y = true -> le y z = true -> le x z = true.

Lemma insert_by_Permutation x l : insert_by le x l ≡ₚ x :: l.
Proof.
  induction l as [|y l IH]; simpl; [done|].
  destruct (le x y); [done|].
  rewrite IH. apply Permutation_swap.
Qed.

Lemma sort_by_Permutation l : sort_by le l ≡ₚ l.
Proof.
  induction l as [|x l IH]; simpl; [done|].
  by rewrite insert_by_Permutation, IH.
Qed.

Lemma insert_by_StronglySorted x l :
  StronglySorted R l -> StronglySorted R (insert_by le x l).
Proof.
  induction 1 as [|y l Hs IH Hy]; simpl.
  - repeat constructor.
  - destruct (le x y) eqn:Hxy.
    + constructor; [by constructor|].
      constructor; [done|].
      eapply Forall_impl; [exact Hy|]. intros z Hz. by eapply le_trans.
    + constructor; [done|].
      rewrite insert_by_Permutation. constructor; [|done].
      destruct (le_total x y); [congruence|done].
Qed.

Lemma sort_by_StronglySorted l : StronglySorted R (sort_by le l).
Proof.
  induction l; simpl; [constructor|by apply insert_by_StronglySorted].
Qed.

(** Sorting a sorted list changes nothing. *)
Lemma sort_by_Sorted_id l : Sorted R l -> sort_by le l = l.
Proof.
  induction 1 as [|x l Hs IH Hx]; simpl; [done|].
  rewrite IH. destruct Hx as [|y l Hxy]; simpl; [done|].
  unfold le_rel in Hxy. by rewrite Hxy.
Qed.

(** Stability: the sort commutes with taking a sub-list by a predicate. *)
Lemma filter_insert_by (P : A -> Prop) `{!forall x, Decision (P x)} x l :
  StronglySorted R l ->
  filter P (insert_by le x l) =
    if decide (P x) then insert_by le x (filter P l) else filter P l.
Proof.
  induction 1 as [|y l Hs IH Hy]; simpl.
  - rewrite filter_cons, filter_nil. by destruct (decide (P x)).
  - destruct (le x y) eqn:Hxy.
    + rewrite (filter_cons _ x). destruct (decide (P x)) as [HP|HP]; [|done].
      assert (Hall : Forall (R x) (filter P (y :: l))).
      { apply Forall_forall. intros z [_ Hz]%list_elem_of_filter.
        apply elem_of_cons in Hz as [->|Hz]; [done|].
        eapply le_trans; [exact Hxy|].
        by eapply (proj1 (Forall_forall _ _) Hy). }
      destruct (filter P (y :: l)) as [|z k]; simpl; [done|].
      apply Forall_cons in Hall as [Hz _]. unfold le_rel in Hz.
      by rewrite Hz.
    + rewrite !(filter_cons _ y), IH.
      destruct (decide (P y)), (decide (P x)); simpl; try done.
      by rewrite Hxy.
Qed.

Lemma filter_sort_by (P : A -> Prop) `{!forall x, Decision (P x)} l :
  filter P (sort_by le l) = sort_by le (filter P l).
Proof.
  induction l as [|x l IH]; simpl; [done|].
  rewrite filter_insert_by by apply sort_by_StronglySorted.
  rewrite filter_cons, IH. by destruct (decide (P x)).
Qed.
End StableSortFacts.

(** Two comparisons that agree on the elements of a list sort it alike. *)
Lemma insert_by_ext {A} (le1 le2 : A -> A -> bool) x l :
  Forall (fun y => le1 x y = le2 x y) l ->
  insert_by le1 x l = insert_by le2 x l.
Proof.
  induction 1 as [|y l Hy _ IH]; simpl; [done|]. by rewrite Hy, IH.
Qed.

Lemma sort_by_ext {A} (le1 le2 : A -> A -> bool) l :
  (forall x y, x ∈ l -> y ∈ l -> le1 x y = le2 x y) ->
  sort_by le1 l = sort_by le2 l.
Proof.
  induction l as [|x l IH]; intros Hl; simpl; [done|].
  rewrite IH by (intros; apply Hl; by right).
  apply insert_by_ext, Forall_forall. intros y Hy. apply Hl; [by left|].
  right. by rewrite <- (sort_by_Permutation le2 l).
Qed.

(** ** The two sort keys *)

Lemma le_start_total x y : le_start x y = true \/ le_start y x = true.
Proof. unfold le_start. lia. Qed.

Lemma le_start_trans x y z :
  le_start x y = true -> le_start y z = true -> le_start x z = true.
Proof. unfold le_start. lia. Qed.

Lemma string_compare_refl s : String.compare s s = Eq.
Proof.
  induction s as [|a s IH]; simpl; [done|].
  unfold Ascii.compare. by rewrite N.compare_refl.
Qed.

Lemma string_compare_Lt_trans a b c :
  String.compare a b = Lt -> String.compare b c = Lt ->
  String.compare a c = Lt.
Proof.
  intros Hab Hbc.
  assert (Hle : String.le a c).
  { transitivity b; unfold String.le, String.leb; [by rewrite Hab|by rewrite Hbc]. }
  unfold String.le, String.leb in Hle.
  destruct (String.compare a c) eqn:Hac; [|done..].
  apply String.compare_eq_iff in Hac as ->.
  rewrite String.compare_antisym, Hbc in Hab. done.
Qed.

Lemma le_channel_start_total x y :
  le_channel_start x y = true \/ le_channel_start y x = true.
Proof.
  unfold le_channel_start.
  rewrite (String.compare_antisym (channel x) (channel y)).
  destruct (String.compare (channel y) (channel x)); simpl; lia.
Qed.

Lemma le_channel_start_trans x y z :
  le_channel_start x y = true -> le_channel_start y z = true ->
  le_channel_start x z = true.
Proof.
  unfold le_channel_start.
  destruct (String.compare (channel x) (channel y)) eqn:Hxy; [| |done].
  - apply String.compare_eq_iff in Hxy as ->.
    destruct (String.compare (channel y) (channel z)); [lia|done..].
  - destruct (String.compare (channel y) (channel z)) eqn:Hyz; [| |done].
    + apply String.compare_eq_iff in Hyz as <-. by rewrite Hxy.
    + by rewrite (string_compare_Lt_trans _ _ _ Hxy Hyz).
Qed.

(** On one channel the pair key orders like the start instant. *)
Lemma sort_by_one_channel c l :
  Forall (on_channel c) l ->
  sort_by le_channel_start l = sort_by le_start l.
Proof.
  intros Hl. apply sort_by_ext. intros x y Hx Hy.
  rewrite Forall_forall in Hl.
  unfold le_channel_start, le_start.
  rewrite (Hl x Hx), (Hl y Hy), string_compare_refl. done.
Qed.

(** ** Grouping by channel *)

Lemma filter_none {A} (P : A -> Prop) `{!forall x, Decision (P x)} l :
  Forall (fun x => ~ P x) l -> filter P l = [].
Proof.
  induction 1 as [|x l Hx _ IH]; [done|]. by rewrite filter_cons_False.
Qed.

Lemma filter_all {A} (P : A -> Prop) `{!forall x, Decision (P x)} l :
  Forall P l -> filter P l = l.
Proof.
  induction 1 as [|x l Hx _ IH]; [done|]. by rewrite filter_cons_True, IH.
Qed.

Lemma setdefault_append_keys {A} (bc : list (string * list A)) k p :
  (setdefault_append bc k p).*1 =
    if decide (k ∈ bc.*1) then bc.*1 else bc.*1 ++ [k].
Proof.
  induction bc as [|[k0 l0] bc IH]; [done|].
  cbn [setdefault_append].
  destruct (String.eqb_spec k0 k) as [->|Hne]; rewrite !fmap_cons; simpl.
  - rewrite decide_True by left. done.
  - rewrite IH. destruct (decide (k ∈ bc.*1)) as [Hin|Hin].
    + rewrite decide_True by (by right). done.
    + rewrite decide_False; [done|].
      intros [->|?]%elem_of_cons; done.
Qed.

Lemma setdefault_append_entries {A} (bc : list (string * list A)) k p k' l' :
  NoDup bc.*1 ->
  (k', l') ∈ setdefault_append bc k p ->
  (k' <> k /\ (k', l') ∈ bc) \/
  (k' = k /\ ((exists l, (k, l) ∈ bc /\ l' = l ++ [p]) \/
             ((k ∉ bc.*1) /\ l' = [p]))).
Proof.
  induction bc as [|[k0 l0] bc IH]; cbn [setdefault_append]; intros Hnd Hin.
  - apply list_elem_of_singleton in Hin. simplify_eq.
    right. split; [done|]. right. split; [|done]. apply not_elem_of_nil.
  - rewrite fmap_cons in Hnd. apply NoDup_cons in Hnd as [Hk0 Hnd].
    simpl in Hk0.
    destruct (String.eqb_spec k0 k) as [->|Hne].
    + apply elem_of_cons in Hin as [Heq|Hin].
      * simplify_eq. right. split; [done|]. left. exists l0. split; [left|done].
      * left. split; [|by right].
        intros ->. apply Hk0. apply list_elem_of_fmap. by exists (k, l').
    + apply elem_of_cons in Hin as [Heq|Hin].
      * simplify_eq. left. split; [done|left].
      * destruct (IH Hnd Hin) as [[Hk Hbc]|[-> [(l & Hbc & ->)|[Hk ->]]]].
        -- left. split; [done|by right].
        -- right. split; [done|]. left. exists l. split; [by right|done].
        -- right. split; [done|]. right. split; [|done].
           intros [?|?]%elem_of_cons; done.
Qed.

Lemma setdefault_append_grouped ps bc p :
  grouped ps bc ->
  grouped (ps ++ [p]) (setdefault_append bc (channel p) p).
Proof.
  intros (Hnd & Hall & Hkeys). split; [|split].
  - rewrite setdefault_append_keys. case_decide; [done|].
    apply NoDup_app. split; [done|]. split; [|apply NoDup_singleton].
    intros k Hk ->%list_elem_of_singleton. done.
  - apply Forall_forall. intros [k' l'] Hin. simpl.
    rewrite filter_app, filter_cons, filter_nil.
    rewrite Forall_forall in Hall.
    destruct (setdefault_append_entries _ _ _ _ _ Hnd Hin)
      as [[Hne Hin']|[-> [(l & Hin' & ->)|[Hnew ->]]]].
    + destruct (Hall _ Hin') as [Heq Hnil]. simpl in *.
      rewrite decide_False by (unfold on_channel; congruence).
      rewrite app_nil_r. done.
    + destruct (Hall _ Hin') as [Heq Hnil]. simpl in *.
      rewrite decide_True by done. rewrite <- Heq.
      split; [done|]. by destruct l.
    + rewrite decide_True by done. split; [|done].
      assert (Hempty : filter (on_channel (channel p)) ps = []); [|by rewrite Hempty].
      apply filter_none, Forall_forall. intros q Hq Hch.
      apply Hnew. rewrite <- Hch. by apply Hkeys.
  - intros q Hq. rewrite setdefault_append_keys.
    apply elem_of_app in Hq as [Hq| ->%list_elem_of_singleton].
    + case_decide; [by apply Hkeys|]. apply elem_of_app. left. by apply Hkeys.
    + case_decide; [done|]. apply elem_of_app. right. by left.
Qed.

Lemma group_by_channel_grouped ps : grouped ps (group_by_channel ps).
Proof.
  unfold group_by_channel, group_by_key.
  induction ps as [|p ps IH] using rev_ind; simpl.
  - split; [constructor|]. split; [constructor|]. by intros p ?%not_elem_of_nil.
  - rewrite fold_left_app. simpl. by apply setdefault_append_grouped.
Qed.

(** ** One channel's sweep *)

Lemma clean_step_channel k s st p :
  Forall (on_channel k) st.1 ->
  (forall c, st.2 = Some c -> on_channel k c) ->
  on_channel k p ->
  Forall (on_channel k) (clean_step s st p).1 /\
  (forall c, (clean_step s st p).2 = Some c -> on_channel k c).
Proof.
  destruct st as [merged [c|]]; simpl; intros Hm Hc Hp; [|naive_solver].
  specialize (Hc c eq_refl).
  repeat case_match; simpl; (split; [|intros ? [= <-]; done]);
    rewrite ?Forall_app, ?Forall_singleton; done.
Qed.

Lemma fold_clean_step_channel k s l st :
  Forall (on_channel k) l ->
  Forall (on_channel k) st.1 ->
  (forall c, st.2 = Some c -> on_channel k c) ->
  Forall (on_channel k) (fold_left (clean_step s) l st).1 /\
  (forall c, (fold_left (clean_step s) l st).2 = Some c -> on_channel k c).
Proof.
  intros Hl. revert st. induction Hl as [|p l Hp _ IH]; intros st Hm Hc; [done|].
  simpl. destruct (clean_step_channel k s st p Hm Hc Hp). by apply IH.
Qed.

Lemma clean_channel_on_channel k s l :
  Forall (on_channel k) l -> Forall (on_channel k) (clean_channel s l).
Proof.
  intros Hl. unfold clean_channel.
  destruct (fold_clean_step_channel k s (sort_by le_start l) ([], None))
    as [Hm Hc]; [by rewrite sort_by_Permutation|done..|].
  destruct (fold_left _ _ _) as [merged [c|]]; simpl in *; [|done].
  rewrite Forall_app, Forall_singleton. auto.
Qed.

(** [precedes b c] only looks at the start instant of [c]. *)
Lemma TlRel_precedes_mono c c' merged :
  start c <= start c' ->
  TlRel precedes c merged -> TlRel precedes c' merged.
Proof.
  intros Hle [|b l [Hb1 Hb2]]; constructor. unfold precedes. lia.
Qed.

(** The sweep over a start-sorted list keeps [merged] a timeline that the
    current programme continues. *)
Lemma fold_clean_step_timeline s l merged c :
  StronglySorted (le_rel le_start) l ->
  Forall (fun p => start c <= start p) l ->
  Sorted precedes merged -> TlRel precedes c merged ->
  exists merged' c',
    fold_left (clean_step s) l (merged, Some c) = (merged', Some c') /\
    Sorted precedes merged' /\ TlRel precedes c' merged'.
Proof.
  intros Hl. revert merged c.
  induction Hl as [|p l Hl IH Hp]; intros merged c Hc Hm Htl; simpl; [eauto|].
  apply Forall_cons in Hc as [Hcp Hc].
  assert (Hpl : Forall (fun q => start p <= start q) l).
  { eapply Forall_impl; [exact Hp|]. unfold le_rel, le_start. intros; lia. }
  destruct (start p <? stop c) eqn:Hov.
  - destruct (s =? "trim")%string.
    + destruct (start p <=? start c) eqn:Hct.
      * apply IH; [done..|]. by apply (TlRel_precedes_mono c).
      * apply IH; [done| |].
        -- apply Sorted_snoc; [done|].
           by apply (TlRel_precedes_mono c).
        -- constructor. unfold precedes. simpl. lia.
    + apply IH; [done..|]. by apply (TlRel_precedes_mono c).
  - apply IH; [done| |].
    + by apply Sorted_snoc.
    + constructor. unfold precedes. lia.
Qed.

Lemma clean_channel_timeline s l : Sorted precedes (clean_channel s l).
Proof.
  unfold clean_channel.
  pose proof (sort_by_StronglySorted le_start le_start_total le_start_trans l) as Hs.
  destruct (sort_by le_start l) as [|p sl]; simpl; [constructor|].
  apply StronglySorted_inv in Hs as [Hs Hp].
  destruct (fold_clean_step_timeline s sl [] p) as (m & c & -> & Hm & Htl);
    [done| |constructor..|].
  - eapply Forall_impl; [exact Hp|]. unfold le_rel, le_start. intros; lia.
  - by apply Sorted_snoc.
Qed.

(** A channel with a programme keeps one: the last [cur] is always emitted. *)
Lemma clean_channel_nonempty s l : l <> [] -> clean_channel s l <> [].
Proof.
  intros Hl. unfold clean_channel.
  assert (Hsl : sort_by le_start l <> []).
  { intros Hnil. apply Hl, Permutation_nil_r. by rewrite <- Hnil, sort_by_Permutation. }
  destruct (sort_by le_start l) as [|p sl]; [done|]. simpl.
  assert (Hcur : forall st, st.2 <> None ->
            (fold_left (clean_step s) sl st).2 <> None).
  { clear. induction sl as [|q sl IH]; intros st Hst; [done|]. simpl.
    apply IH. destruct st as [m [c|]]; simpl; [|done].
    repeat case_match; done. }
  specialize (Hcur ([], Some p)).
  destruct (fold_left _ _ _) as [m [c|]]; simpl in *; [|naive_solver].
  by destruct m.
Qed.

(** Without overlaps the sweep emits the sorted list as it is. *)
Lemma fold_clean_step_disjoint s l merged c :
  Sorted precedes (c :: l) ->
  exists m c', fold_left (clean_step s) l (merged, Some c) = (m, Some c') /\
    m ++ [c'] = merged ++ c :: l.
Proof.
  revert merged c. induction l as [|p l IH]; intros merged c Hs; simpl; [eauto|].
  apply Sorted_inv in Hs as [Hs Hcp]. apply HdRel_inv in Hcp as [_ Hcp].
  assert ((start p <? stop c) = false) as -> by lia.
  destruct (IH (merged ++ [c]) p Hs) as (m & c' & -> & Heq).
  exists m, c'. split; [done|]. by rewrite Heq, <- app_assoc.
Qed.

Lemma clean_channel_disjoint s l :
  Sorted precedes (sort_by le_start l) ->
  clean_channel s l = sort_by le_start l.
Proof.
  unfold clean_channel. intros Hs.
  destruct (sort_by le_start l) as [|p sl]; simpl; [done|].
  by destruct (fold_clean_step_disjoint s sl [] p Hs) as (m & c & -> & ->).
Qed.

(** ** The whole list *)

Lemma Sorted_weaken {A} (R R' : A -> A -> Prop) l :
  (forall x y, R x y -> R' x y) -> Sorted R l -> Sorted R' l.
Proof.
  intros HR. induction 1 as [|x l Hs IH Hx]; constructor; [done|].
  destruct Hx; constructor; auto.
Qed.

Lemma fold_left_cleaned s bc acc :
  fold_left (fun cleaned '(chan, plist) => cleaned ++ clean_channel s plist)
            bc acc
  = acc ++ concat ((fun kl : string * list programme => clean_channel s kl.2) <$> bc).
Proof.
  revert acc. induction bc as [|[k l] bc IH]; intros acc.
  - simpl. by rewrite app_nil_r.
  - rewrite fmap_cons. cbn [fold_left concat snd]. by rewrite IH, <- app_assoc.
Qed.

Lemma filter_cleaned_entries c s ps bc :
  NoDup bc.*1 ->
  Forall (fun kl => kl.2 = filter (on_channel kl.1) ps /\ kl.2 <> []) bc ->
  filter (on_channel c) (concat ((fun kl : string * list programme => clean_channel s kl.2) <$> bc)) =
    if decide (c ∈ bc.*1) then clean_channel s (filter (on_channel c) ps)
    else [].
Proof.
  induction bc as [|[k l] bc IH]; intros Hnd Hall; [done|].
  rewrite fmap_cons in Hnd. rewrite !fmap_cons. apply NoDup_cons in Hnd as [Hk Hnd].
  apply Forall_cons in Hall as [[Hl _] Hall]. cbn [fst snd concat] in *.
  rewrite filter_app, (IH Hnd Hall).
  assert (Hch : Forall (on_channel k) (clean_channel s l)).
  { apply clean_channel_on_channel. rewrite Hl.
    apply Forall_forall. by intros p [? _]%list_elem_of_filter. }
  destruct (decide (c = k)) as [->|Hne].
  - destruct (decide (k ∈ bc.*1)); [done|].
    destruct (decide (k ∈ k :: bc.*1)) as [_|[]]; [|left].
    rewrite filter_all by done. by rewrite app_nil_r, Hl.
  - rewrite filter_none.
    + simpl. destruct (decide (c ∈ bc.*1)) as [Hin|Hin].
      * rewrite decide_True by (by right). done.
      * rewrite decide_False; [done|]. by intros [?|?]%elem_of_cons.
    + eapply Forall_impl; [exact Hch|]. unfold on_channel. congruence.
Qed.

Lemma clean_channel_nil s : clean_channel s [] = [].
Proof. done. Qed.

(** The output restricted to a channel is that channel's sweep. *)
Lemma clean_overlaps_channel ps s c :
  filter (on_channel c) (clean_overlaps ps s) =
    clean_channel s (filter (on_channel c) ps).
Proof.
  unfold clean_overlaps.
  rewrite (filter_sort_by _ le_channel_start_total le_channel_start_trans).
  rewrite fold_left_cleaned. simpl.
  destruct (group_by_channel_grouped ps) as (Hnd & Hall & Hkeys).
  rewrite (filter_cleaned_entries c s ps _ Hnd Hall).
  assert (Hid : forall l, Forall (on_channel c) l ->
            sort_by le_channel_start (clean_channel s l) = clean_channel s l).
  { intros l Hl.
    rewrite (sort_by_one_channel c) by by apply clean_channel_on_channel.
    apply sort_by_Sorted_id.
    eapply Sorted_weaken; [|apply clean_channel_timeline].
    unfold precedes, le_rel, le_start. intros; lia. }
  case_decide as Hin.
  - apply Hid, Forall_forall. by intros p [? _]%list_elem_of_filter.
  - rewrite filter_none; [done|].
    apply Forall_forall. intros p Hp Hch. apply Hin.
    rewrite <- Hch. by apply Hkeys.
Qed.

Lemma clean_overlaps_StronglySorted ps s :
  StronglySorted (le_rel le_channel_start) (clean_overlaps ps s).
Proof.
  apply sort_by_StronglySorted;
    [apply le_channel_start_total|apply le_channel_start_trans].
Qed.

(** ** The cleaned timeline *)

#[local] Instance precedes_trans : Transitive precedes.
Proof. unfold precedes. intros a b c. lia. Qed.

(** Each channel's part of the output is a timeline. *)
Lemma clean_overlaps_channel_timeline ps s c :
  StronglySorted precedes (filter (on_channel c) (clean_overlaps ps s)).
Proof.
  rewrite clean_overlaps_channel.
  apply Sorted_StronglySorted; [apply _|apply clean_channel_timeline].
Qed.

Lemma lookup_lt_split {A} (l : list A) i j a b :
  (i < j)%nat -> l !! i = Some a -> l !! j = Some b ->
  exists l1 l2 l3, l = l1 ++ a :: l2 ++ b :: l3.
Proof.
  intros Hij Ha Hb.
  exists (take i l), (take (j - S i) (drop (S i) l)),
         (drop (S (j - S i)) (drop (S i) l)).
  rewrite (take_drop_middle (drop (S i) l) (j - S i) b).
  - by rewrite take_drop_middle.
  - rewrite lookup_drop. rewrite <- Hb. f_equal. lia.
Qed.

(** C1. For every input list and every strategy string (so for 'trim' and
    for 'merge'), any two programmes of the same channel that follow each
    other in the output, adjacent or not, are in start order and do not
    overlap: the earlier one stops no later than the later one starts. *)
Theorem clean_overlaps_non_overlapping ps strategy i j a b :
  (i < j)%nat ->
  clean_overlaps ps strategy !! i = Some a ->
  clean_overlaps ps strategy !! j = Some b ->
  channel a = channel b ->
  start a <= start b /\ stop a <= start b.
Proof.
  intros Hij Ha Hb Hch.
  destruct (lookup_lt_split _ _ _ _ _ Hij Ha Hb) as (l1 & l2 & l3 & Hout).
  pose proof (clean_overlaps_channel_timeline ps strategy (channel a)) as Hs.
  rewrite Hout in Hs.
  rewrite filter_app, filter_cons_True, filter_app, filter_cons_True in Hs
    by done.
  apply StronglySorted_app_1_r in Hs.
  apply StronglySorted_inv in Hs as [_ Hs].
  rewrite Forall_app, Forall_cons in Hs. by destruct Hs as (_ & Hab & _).
Qed.

Lemma clean_overlaps_non_overlapping_witness :
  let out := clean_overlaps [prog "c" 0 50 "A"; prog "c" 30 80 "B"] "trim" in
  out = [prog "c" 0 30 "A"; prog "c" 30 80 "B"] /\
  (0 <= 30 /\ 30 <= 30).
Proof.
  split; [reflexivity|].
  apply (clean_overlaps_non_overlapping
           [prog "c" 0 50 "A"; prog "c" 30 80 "B"] "trim" 0 1
           (prog "c" 0 30 "A") (prog "c" 30 80 "B"));
    [lia|reflexivity..].
Defined.

(** C4. For every input list and every strategy, a channel that has a
    programme in the input has a programme in the output. *)
Theorem clean_overlaps_keeps_channel ps strategy p :
  p ∈ ps ->
  exists q, q ∈ clean_overlaps ps strategy /\ channel q = channel p.
Proof.
  intros Hp.
  assert (Hne : filter (on_channel (channel p)) (clean_overlaps ps strategy) <> []).
  { rewrite clean_overlaps_channel. apply clean_channel_nonempty.
    intros Hnil.
    eapply filter_nil_not_elem_of; [exact Hnil|reflexivity|exact Hp]. }
  destruct (filter _ _) as [|q l] eqn:Hf; [done|].
  assert (Hq : q ∈ filter (on_channel (channel p)) (clean_overlaps ps strategy))
    by (rewrite Hf; left).
  apply list_elem_of_filter in Hq as [Hch Hq]. by exists q.
Qed.

Lemma clean_overlaps_keeps_channel_witness :
  exists q,
    q ∈ clean_overlaps [prog "c" 10 100 "A"; prog "c" 10 50 "B"] "trim" /\
    channel q = "c".
Proof.
  apply (clean_overlaps_keeps_channel
           [prog "c" 10 100 "A"; prog "c" 10 50 "B"] "trim"
           (prog "c" 10 100 "A")).
  left.
Defined.

(** ** Worked timelines *)

(** Two programmes of one channel are grouped together. *)
Lemma group_by_channel_two a b :
  channel a = channel b ->
  group_by_channel [a; b] = [(channel a, [a; b])].
Proof.
  intros Hch. unfold group_by_channel, group_by_key. simpl.
  by rewrite Hch, String.eqb_refl.
Qed.

Lemma group_by_channel_three a b c :
  channel a = channel b -> channel b = channel c ->
  group_by_channel [a; b; c] = [(channel a, [a; b; c])].
Proof.
  intros Hab Hbc. unfold group_by_channel, group_by_key. simpl.
  rewrite <- Hbc, <- Hab, String.eqb_refl. simpl.
  by rewrite String.eqb_refl.
Qed.

(** C6. Programmes A=[0,50), B=[30,80), C=[70,90) of one channel, titled
    'A', 'B' and 'C', are merged by strategy 'merge' into exactly one
    programme: A with stop 90 and title 'A / B / C'. *)
Theorem merge_accumulation (A B C : programme) :
  channel A = channel B -> channel B = channel C ->
  start A = 0 -> stop A = 50 -> title A = "A" ->
  start B = 30 -> stop B = 80 -> title B = "B" ->
  start C = 70 -> stop C = 90 -> title C = "C" ->
  let q := set_title (set_stop A 90) "A / B / C" in
  clean_overlaps [A; B; C] "merge" = [q] /\
  start q = 0 /\ stop q = 90 /\ title q = "A / B / C".
Proof.
  intros Hab Hbc HsA HeA HtA HsB HeB HtB HsC HeC HtC.
  split; [|done].
  unfold clean_overlaps. rewrite group_by_channel_three by done.
  clear Hab Hbc. destruct A, B, C. simpl in *. subst. reflexivity.
Qed.

Lemma merge_accumulation_witness :
  clean_overlaps [prog "c" 0 50 "A"; prog "c" 30 80 "B"; prog "c" 70 90 "C"]
                 "merge"
    = [prog "c" 0 90 "A / B / C"] /\
  start (prog "c" 0 90 "A / B / C") = 0 /\
  stop (prog "c" 0 90 "A / B / C") = 90 /\
  title (prog "c" 0 90 "A / B / C") = "A / B / C".
Proof.
  apply (merge_accumulation (prog "c" 0 50 "A") (prog "c" 30 80 "B")
                            (prog "c" 70 90 "C")); reflexivity.
Defined.

(** C2, as the spec states it, fails for 'merge': with A=[10,100) and
    B=[10,50) of one channel, the merge branch has no containment case, so
    A is not discarded but absorbs B. *)
Lemma containment_merge_counterexample :
  let A := prog "c" 10 100 "A" in
  let B := prog "c" 10 50 "B" in
  (start B <? stop A) = true /\ (start B <=? start A) = true /\
  clean_step "merge" ([], Some A) B <> ([], Some B) /\
  clean_overlaps [A; B] "merge" = [prog "c" 10 100 "A / B"] /\
  clean_overlaps [A; B] "merge" <> [prog "c" 10 50 "B"].
Proof. repeat split; (reflexivity || discriminate). Qed.

(** C2, amended. When the next programme B overlaps the current one A and
    B.start <= A.start, strategy 'trim' discards A and makes B the current
    programme, while strategy 'merge' keeps A as the current programme and
    lets it absorb B (stop = max of the stops, title 'A.title / B.title').
    For two programmes of one channel with equal starts, A first, the
    output is exactly [B] under 'trim' and exactly the merged programme
    under 'merge'. *)
Theorem clean_overlaps_containment (A B : programme) merged :
  start B < stop A -> start B <= start A ->
  clean_step "trim" (merged, Some A) B = (merged, Some B) /\
  clean_step "merge" (merged, Some A) B = (merged, Some (absorb A B)) /\
  (channel A = channel B -> start A = start B ->
   clean_overlaps [A; B] "trim" = [B] /\
   clean_overlaps [A; B] "merge" = [absorb A B]).
Proof.
  intros Hov Hct. split; [|split].
  - simpl. assert ((start B <? stop A) = true) as -> by lia.
    by assert ((start B <=? start A) = true) as -> by lia.
  - simpl. by assert ((start B <? stop A) = true) as -> by lia.
  - intros Hch Hst. unfold clean_overlaps.
    rewrite group_by_channel_two by done. unfold clean_channel. simpl.
    assert (le_start A B = true) as -> by (unfold le_start; lia). simpl.
    assert ((start B <? stop A) = true) as -> by lia.
    by assert ((start B <=? start A) = true) as -> by lia.
Qed.

Lemma clean_overlaps_containment_witness :
  let A := prog "c" 10 100 "A" in
  let B := prog "c" 10 50 "B" in
  clean_step "trim" ([], Some A) B = ([], Some B) /\
  clean_step "merge" ([], Some A) B = ([], Some (prog "c" 10 100 "A / B")) /\
  clean_overlaps [A; B] "trim" = [prog "c" 10 50 "B"] /\
  clean_overlaps [A; B] "merge" = [prog "c" 10 100 "A / B"].
Proof.
  destruct (clean_overlaps_containment
              (prog "c" 10 100 "A") (prog "c" 10 50 "B") [])
    as (Htrim & Hmerge & Hlist); [simpl; lia..|].
  destruct (Hlist eq_refl eq_refl) as [Hout_trim Hout_merge].
  repeat split; assumption.
Defined.

(** ** Input without overlaps *)

Lemma StronglySorted_lookup_intro {A} (R : A -> A -> Prop) (l : list A) :
  (forall i j a b, (i < j)%nat -> l !! i = Some a -> l !! j = Some b -> R a b) ->
  StronglySorted R l.
Proof.
  induction l as [|x l IH]; intros Hl; constructor.
  - apply IH. intros i j a b Hij Ha Hb. apply (Hl (S i) (S j)); [lia|done..].
  - apply Forall_lookup. intros j b Hb. apply (Hl 0%nat (S j)); [lia|done..].
Qed.

Lemma StronglySorted_Permutation_sym {A} (R : A -> A -> Prop) l l' :
  Symmetric R -> l ≡ₚ l' -> StronglySorted R l -> StronglySorted R l'.
Proof.
  intros Hsym. induction 1 as [|x l l' Hp IH|x y l|l l' l'' _ IH1 _ IH2].
  - done.
  - intros [Hs Hx]%StronglySorted_inv. constructor; [auto|by rewrite <- Hp].
  - intros [[Hs Hx]%StronglySorted_inv Hy]%StronglySorted_inv.
    apply Forall_cons in Hy as [Hyx Hy].
    repeat constructor; auto.
  - auto.
Qed.

Lemma StronglySorted_filter {A} (R : A -> A -> Prop) (P : A -> Prop)
    `{!forall x, Decision (P x)} l :
  StronglySorted R l -> StronglySorted R (filter P l).
Proof.
  induction 1 as [|x l Hs IH Hx]; [constructor|].
  rewrite filter_cons. case_decide; [|done].
  constructor; [done|].
  apply Forall_forall. intros y [_ Hy]%list_elem_of_filter.
  by eapply (proj1 (Forall_forall _ _) Hx).
Qed.

(** Two sorted lists with the same elements per class, in the same order
    within each class, are equal when the order separates the classes. *)
Lemma sorted_unique_by_class {A K} `{!EqDecision K}
    (R : A -> A -> Prop) (cls : A -> K) (l1 l2 : list A) :
  (forall x y, R x y -> R y x -> cls x = cls y) ->
  StronglySorted R l1 -> StronglySorted R l2 ->
  (forall k, filter (fun x => cls x = k) l1 = filter (fun x => cls x = k) l2) ->
  l1 = l2.
Proof.
  intros Hanti Hs1. revert l2.
  induction Hs1 as [|a l1 Hs1 IH Ha]; intros l2 Hs2 Hf.
  - destruct l2 as [|b l2]; [done|].
    specialize (Hf (cls b)). rewrite filter_nil in Hf.
    rewrite filter_cons_True in Hf by reflexivity. discriminate.
  - destruct Hs2 as [|b l2 Hs2 Hb].
    { specialize (Hf (cls a)). rewrite filter_nil in Hf.
      rewrite filter_cons_True in Hf by reflexivity. discriminate. }
    destruct (decide (cls b = cls a)) as [Hcls|Hcls].
    + pose proof (Hf (cls a)) as Hfa.
      rewrite !filter_cons_True in Hfa by done.
      injection Hfa as <- Hfa. f_equal. apply IH; [done|].
      intros k. specialize (Hf k). rewrite !filter_cons in Hf.
      case_decide; congruence.
    + exfalso. apply Hcls. symmetry. apply Hanti.
      * pose proof (Hf (cls b)) as Hfb.
        rewrite (filter_cons_True _ b), (filter_cons_False _ a) in Hfb
          by (simpl; congruence).
        assert (Hin : b ∈ filter (fun x => cls x = cls b) l1)
          by (rewrite Hfb; left).
        apply list_elem_of_filter in Hin as [_ Hin].
        by eapply (proj1 (Forall_forall _ _) Ha).
      * pose proof (Hf (cls a)) as Hfa.
        rewrite (filter_cons_True _ a), (filter_cons_False _ b) in Hfa
          by (simpl; congruence).
        assert (Hin : a ∈ filter (fun x => cls x = cls a) l2)
          by (rewrite <- Hfa; left).
        apply list_elem_of_filter in Hin as [_ Hin].
        by eapply (proj1 (Forall_forall _ _) Hb).
Qed.

Lemma overlap_iff a b :
  overlap a b <-> Z.max (start a) (start b) < Z.min (stop a) (stop b).
Proof.
  unfold overlap. split.
  - intros (t & Ha & Hb). lia.
  - intros Hlt. exists (Z.max (start a) (start b)). lia.
Qed.

(** Start-sorted, well-formed, pairwise disjoint programmes of one channel
    form a timeline. *)
Lemma disjoint_sorted_timeline c l :
  StronglySorted (fun a b => channel a = channel b -> ~ overlap a b) l ->
  StronglySorted (le_rel le_start) l ->
  Forall (fun p => start p < stop p) l ->
  Forall (on_channel c) l ->
  StronglySorted precedes l.
Proof.
  induction l as [|x l IH]; intros Hq Hs Hwf Hch; [constructor|].
  apply StronglySorted_inv in Hq as [Hq Hqx].
  apply StronglySorted_inv in Hs as [Hs Hsx].
  apply Forall_cons in Hwf as [Hx Hwf]. apply Forall_cons in Hch as [Hcx Hch].
  constructor; [by apply IH|].
  rewrite Forall_forall in Hqx, Hsx, Hwf, Hch |- *. intros y Hy.
  specialize (Hqx y Hy). specialize (Hsx y Hy). specialize (Hwf y Hy).
  specialize (Hch y Hy). unfold le_rel, le_start, on_channel, precedes in *.
  rewrite overlap_iff in Hqx. assert (channel x = channel y) as Heq by congruence.
  specialize (Hqx Heq). lia.
Qed.

Lemma disjoint_channel_timeline ps c :
  Forall (fun p => start p < stop p) ps -> no_two_overlap ps ->
  Sorted precedes (sort_by le_start (filter (on_channel c) ps)).
Proof.
  intros Hwf Hno. apply StronglySorted_Sorted.
  pose proof (sort_by_Permutation le_start (filter (on_channel c) ps)) as Hperm.
  apply (disjoint_sorted_timeline c).
  - apply (StronglySorted_Permutation_sym _ (filter (on_channel c) ps)).
    + intros a b Hab Hch (t & Hb & Ha). apply Hab; [done|]. by exists t.
    + done.
    + apply StronglySorted_filter, StronglySorted_lookup_intro.
      intros i j a b Hij Ha Hb. apply (Hno i j); [lia|done..].
  - apply sort_by_StronglySorted; [apply le_start_total|apply le_start_trans].
  - rewrite Hperm. apply Forall_forall.
    intros p [_ Hp]%list_elem_of_filter.
    by apply (proj1 (Forall_forall _ _) Hwf).
  - rewrite Hperm. apply Forall_forall. by intros p [? _]%list_elem_of_filter.
Qed.

(** C5, as the spec states it, fails when a programme has an empty range:
    A=[10,100) and B=[50,5) share no instant (B's range is empty and B
    stops before A starts), yet the cleaner tests only
    [B.start < A.stop], so 'trim' cuts A down to [10,50) and 'merge' folds
    B into A. *)
Lemma disjoint_unchanged_counterexample :
  let ps := [prog "c" 10 100 "A"; prog "c" 50 5 "B"] in
  no_two_overlap ps /\
  clean_overlaps ps "trim" = [prog "c" 10 50 "A"; prog "c" 50 5 "B"] /\
  clean_overlaps ps "merge" = [prog "c" 10 100 "A / B"] /\
  ~ clean_overlaps ps "trim" ≡ₚ ps /\
  ~ clean_overlaps ps "merge" ≡ₚ ps.
Proof.
  split; [|split; [reflexivity|split; [reflexivity|split]]].
  - intros i j a b Hij Ha Hb _. rewrite overlap_iff.
    destruct i as [|[|i]], j as [|[|j]]; simpl in *; simplify_eq; simpl; lia.
  - intros Hperm.
    assert (Hin : prog "c" 10 100 "A" ∈
                  [prog "c" 10 50 "A"; prog "c" 50 5 "B"]).
    { change (prog "c" 10 100 "A" ∈
              clean_overlaps [prog "c" 10 100 "A"; prog "c" 50 5 "B"] "trim").
      rewrite Hperm. left. }
    apply elem_of_cons in Hin as [Hin|Hin]; [discriminate|].
    apply list_elem_of_singleton in Hin. discriminate.
  - intros Hperm. apply Permutation_length in Hperm. discriminate.
Qed.

(** C5, amended. For every input list in which every programme has
    [start < stop] and no two programmes of the same channel overlap, the
    cleaner returns, under every strategy, exactly the input programmes,
    unchanged, in the stable order by (channel id, start instant). *)
Theorem clean_overlaps_disjoint_unchanged ps strategy :
  Forall (fun p => start p < stop p) ps ->
  no_two_overlap ps ->
  clean_overlaps ps strategy = sort_by le_channel_start ps.
Proof.
  intros Hwf Hno.
  apply (sorted_unique_by_class (le_rel le_channel_start) channel).
  - unfold le_rel, le_channel_start. intros x y.
    rewrite (String.compare_antisym (channel x) (channel y)).
    destruct (String.compare (channel y) (channel x)) eqn:Hc; simpl; try done.
    intros _ _. symmetry. by apply String.compare_eq_iff.
  - apply clean_overlaps_StronglySorted.
  - apply sort_by_StronglySorted;
      [apply le_channel_start_total|apply le_channel_start_trans].
  - intros c.
    change (filter (on_channel c) (clean_overlaps ps strategy) =
            filter (on_channel c) (sort_by le_channel_start ps)).
    rewrite clean_overlaps_channel.
    rewrite (clean_channel_disjoint strategy (filter (on_channel c) ps))
      by (by apply disjoint_channel_timeline).
    rewrite (filter_sort_by _ le_channel_start_total le_channel_start_trans).
    symmetry. apply (sort_by_one_channel c).
    apply Forall_forall. by intros p [? _]%list_elem_of_filter.
Qed.

Lemma clean_overlaps_disjoint_unchanged_witness :
  let ps := [prog "d" 5 9 "X"; prog "c" 50 60 "B"; prog "c" 10 50 "A"] in
  clean_overlaps ps "trim" =
    [prog "c" 10 50 "A"; prog "c" 50 60 "B"; prog "d" 5 9 "X"].
Proof.
  apply (clean_overlaps_disjoint_unchanged
           [prog "d" 5 9 "X"; prog "c" 50 60 "B"; prog "c" 10 50 "A"] "trim").
  - repeat constructor.
  - intros i j a b Hij Ha Hb Hch. rewrite overlap_iff.
    destruct i as [|[|[|i]]], j as [|[|[|j]]]; simpl in *; simplify_eq;
      simpl; lia.
Defined.


(** ** The emitted programme element *)

(** [str] of an integer is its decimal text. *)
Lemma int_of_text_str_int n : int_of_text (str_int n) = Some n.
Proof.
  unfold int_of_text, str_int.
  rewrite NilZero.isi.
  - simpl. by rewrite DecimalZ.of_to.
  - destruct n; simpl; [done|..|done]. intros [= H].
    by apply DecimalPos.Unsigned.to_uint_nonnil in H.
  - destruct n; simpl; [done..|]. intros [= H].
    by apply DecimalPos.Unsigned.to_uint_nonnil in H.
Qed.

(** C8. Every programme element has exactly one length child; its units
    are 'minutes' and its text is the decimal text of max(0, q) where q is
    the floor of (stop - start) / 60. The number is never negative, it
    is 0 when stop < start, and a duration of 125 seconds gives '2'. *)
Theorem length_child_minutes (p : programme) :
  exists m q,
    children_tagged "length" (programme_children p) =
      [ET.mkElement "length" [("units", "minutes")] (Some (str_int m)) []] /\
    int_of_text (str_int m) = Some m /\
    60 * q <= stop p - start p < 60 * (q + 1) /\
    m = Z.max 0 q /\
    0 <= m /\
    (stop p < start p -> m = 0) /\
    (stop p - start p = 125 -> str_int m = "2").
Proof.
  exists (length_minutes p), ((stop p - start p) / 60).
  split; [|split; [apply int_of_text_str_int|]].
  - unfold children_tagged, programme_children.
    rewrite !filter_app.
    repeat (rewrite filter_cons_False by (simpl; discriminate)).
    rewrite filter_cons_True by done.
    destruct (truthy (tag p)), (truthy (category p)), (truthy (poster p)),
      (truthy (m3u8 p));
      repeat (rewrite filter_cons_False by (simpl; discriminate));
      rewrite !filter_nil; reflexivity.
  - unfold length_minutes.
    pose proof (Z.div_mod (stop p - start p) 60 ltac:(lia)) as Hdm.
    pose proof (Z.mod_pos_bound (stop p - start p) 60 ltac:(lia)) as Hmod.
    repeat split; try lia.
    intros ->. reflexivity.
Qed.

Lemma length_child_minutes_example :
  children_tagged "length" (programme_children (prog "c" 1000 1125 "T")) =
    [ET.mkElement "length" [("units", "minutes")] (Some "2") []] /\
  children_tagged "length" (programme_children (prog "c" 1000 100 "T")) =
    [ET.mkElement "length" [("units", "minutes")] (Some "0") []].
Proof. split; reflexivity. Qed.

(** C7: the separator the code joins with is not the em-dash separator
    the spec names. For a programme with embed URL 'u' and poster 'p' the
    desc text is 'embed=u', the source's separator (the bytes of an
    em-dash decoded as cp1252 and encoded again), 'poster=p'. *)
Theorem desc_separator_mojibake :
  let p := Programme "c" 0 60 "T" None None (Some "p") (Some "u")
                     None None None in
  children_tagged "desc" (programme_children p) =
    [ET.mkElement "desc" [("lang", "en")]
                  (Some ("embed=u" +:+ DESC_SEP +:+ "poster=p")) []] /\
  "embed=u" +:+ DESC_SEP +:+ "poster=p"
    <> "embed=u" +:+ EM_DASH_SEP +:+ "poster=p" /\
  String.length DESC_SEP = 10%nat /\ String.length EM_DASH_SEP = 5%nat.
Proof. repeat split; (reflexivity || discriminate). Qed.

(** Apart from the separator the desc text is as described: the present
    items in the order embed, viewers, poster, hls, and the empty text
    when there is none. *)
Lemma desc_parts_order (p : programme) :
  desc_parts p =
    omap (fun kv : string * option string =>
            (fun v => kv.1 +:+ "=" +:+ v) <$> kv.2)
         [("embed", if truthy (iframe p) then iframe p else None);
          ("viewers", str_int <$> viewers p);
          ("poster", if truthy (poster p) then poster p else None);
          ("hls", if truthy (m3u8 p) then m3u8 p else None)].
Proof.
  unfold desc_parts.
  destruct (iframe p) as [[|? ?]|], (viewers p), (poster p) as [[|? ?]|],
    (m3u8 p) as [[|? ?]|]; reflexivity.
Qed.

Lemma desc_text_empty (p : programme) :
  truthy (iframe p) = false -> viewers p = None ->
  truthy (poster p) = false -> truthy (m3u8 p) = false ->
  String.concat DESC_SEP (desc_parts p) = "".
Proof. unfold desc_parts. by intros -> -> -> ->. Qed.

(** ** The guide builder *)

Lemma fold_left_concat {A B} (f : A -> B -> A) (ls : list (list B)) a :
  fold_left (fun acc l => fold_left f l acc) ls a = fold_left f (concat ls) a.
Proof.
  revert a. induction ls as [|l ls IH]; intros a; simpl; [done|].
  by rewrite IH, fold_left_app.
Qed.

Lemma build_programs_fold data tz :
  build_programs data tz = fold_left build_step (all_streams data) ([], []).
Proof.
  unfold build_programs, all_streams.
  rewrite <- fold_left_concat.
  generalize (@nil (string * channel_meta), @nil programme).
  induction (default [] (Json.streams data)) as [|c cs IH]; intros st; simpl;
    [done|apply IH].
Qed.

(** The registry holds the derived ids of all records seen; the programme
    list holds the programmes of the records that have both instants. *)
Lemma fold_build_step ss :
  let st := fold_left build_step ss ([], []) in
  (forall c, c ∈ st.1.*1 <-> c ∈ chan_id_of <$> ss) /\
  NoDup st.1.*1 /\
  st.2 = omap programme_of ss.
Proof.
  induction ss as [|s ss IH] using rev_ind; simpl.
  - split; [|split]; [done|constructor|done].
  - rewrite fold_left_app. simpl.
    destruct (fold_left build_step ss ([], [])) as [channels programmes].
    simpl in IH. destruct IH as (Hkeys & Hnd & Hprogs).
    rewrite omap_app, fmap_app. simpl.
    assert (Hstep :
      (forall c, c ∈ (if decide (chan_id_of s ∈ channels.*1) then channels
                      else channels ++
                           [(chan_id_of s,
                             ChannelMeta
                               (Some (or_else (Json.tag s)
                                        (or_else (Json.category_name s)
                                                 (chan_id_of s))))
                               (Json.poster s))]).*1
                 <-> c ∈ (chan_id_of <$> ss) ++ [chan_id_of s]) /\
      NoDup (if decide (chan_id_of s ∈ channels.*1) then channels
             else channels ++
                  [(chan_id_of s,
                    ChannelMeta
                      (Some (or_else (Json.tag s)
                               (or_else (Json.category_name s)
                                        (chan_id_of s))))
                      (Json.poster s))]).*1).
    { case_decide as Hin.
      - split; [|done]. intros c. rewrite elem_of_app, list_elem_of_singleton.
        rewrite <- Hkeys. split; [auto|]. by intros [?| ->].
      - rewrite fmap_app. simpl. split.
        + intros c. rewrite !elem_of_app, Hkeys. done.
        + apply NoDup_app. split; [done|]. split; [|apply NoDup_singleton].
          by intros c Hc ->%list_elem_of_singleton. }
    destruct Hstep as [Hk' Hnd'].
    destruct (programme_of s); simpl; (split; [|split]); try done.
    + by rewrite Hprogs.
    + by rewrite Hprogs, app_nil_r.
Qed.

Lemma programme_of_channel s p : programme_of s = Some p -> channel p = chan_id_of s.
Proof.
  unfold programme_of. destruct (Json.starts_at s), (Json.ends_at s); [|done..].
  by intros [= <-].
Qed.

(** C3, as the spec states it, fails: a record without its instants still
    registers its channel, and leaves no programme. *)
Lemma channel_without_programme_counterexample :
  let s := Json.Stream (Some "a") None None None None None None None None None in
  let data := Json.Data (Some [Json.Category (Some [s])]) in
  let tz : ZoneInfo := fun _ => 28800 in
  build_programs data tz = ([("a", ChannelMeta (Some "a") None)], []) /\
  "a" ∈ (build_programs data tz).1.*1 /\
  ~ exists p, p ∈ (build_programs data tz).2 /\ channel p = "a".
Proof.
  intros s data tz. split; [reflexivity|]. split; [left|].
  intros (p & Hp & _). by apply not_elem_of_nil in Hp.
Qed.

(** C3, amended. For every upstream JSON input, the channel ids of the
    registry are exactly the derived ids of the stream records; such an id
    is referenced by a programme of the returned list exactly when one of
    its records has both [starts_at] and [ends_at]; and every programme of
    the returned list references a channel of the registry. *)
Theorem build_programs_channels (data : Json.data) (tz : ZoneInfo) (c : string) :
  let channels := (build_programs data tz).1 in
  let programmes := (build_programs data tz).2 in
  (c ∈ channels.*1 <->
     exists s, s ∈ all_streams data /\ chan_id_of s = c) /\
  ((exists p, p ∈ programmes /\ channel p = c) <->
     exists s, s ∈ all_streams data /\ chan_id_of s = c /\
               is_Some (Json.starts_at s) /\ is_Some (Json.ends_at s)) /\
  (forall p, p ∈ programmes -> channel p ∈ channels.*1).
Proof.
  simpl. rewrite build_programs_fold.
  destruct (fold_build_step (all_streams data)) as (Hkeys & _ & Hprogs).
  simpl in *. rewrite Hprogs. split; [|split].
  - rewrite Hkeys, list_elem_of_fmap. naive_solver.
  - split.
    + intros (p & Hp & Hch). apply list_elem_of_omap in Hp as (s & Hs & Hps).
      exists s. split; [done|]. split.
      * by rewrite <- (programme_of_channel s p Hps).
      * unfold programme_of in Hps.
        destruct (Json.starts_at s), (Json.ends_at s); naive_solver.
    + intros (s & Hs & Hch & [t0 Ht0] & [t1 Ht1]).
      destruct (programme_of s) as [p|] eqn:Hp.
      * exists p. split; [apply list_elem_of_omap; eauto|].
        by rewrite (programme_of_channel s p Hp).
      * unfold programme_of in Hp. by rewrite Ht0, Ht1 in Hp.
  - intros p (s & Hs & Hps)%list_elem_of_omap.
    rewrite Hkeys, (programme_of_channel s p Hps). by apply list_elem_of_fmap_2.
Qed.


(** ** The cleaner on the heap *)

Lemma deref_lookup (h : heap) l v : h !! l = Some v -> deref h l = v.
Proof. unfold deref. intros H. by rewrite (lookup_total_correct _ _ _ H). Qed.

Lemma deref_subseteq (h h' : heap) l :
  h ⊆ h' -> l ∈ dom h -> deref h' l = deref h l.
Proof.
  intros Hsub [v Hv]%elem_of_dom.
  rewrite (deref_lookup h l v Hv).
  apply deref_lookup. by eapply lookup_weaken.
Qed.

Lemma fmap_deref_subseteq (h h' : heap) (ls : list loc) :
  h ⊆ h' -> Forall (fun l => l ∈ dom h) ls ->
  deref h' <$> ls = deref h <$> ls.
Proof.
  intros Hsub Hls. apply list_fmap_ext. intros i l Hl.
  apply deref_subseteq; [done|].
  by eapply (proj1 (Forall_lookup _ _) Hls).
Qed.

Lemma fmap_deref_insert (h : heap) l v (ls : list loc) :
  l ∉ ls -> deref (<[l := v]> h) <$> ls = deref h <$> ls.
Proof.
  intros Hl. apply list_fmap_ext. intros i m Hm. unfold deref.
  apply lookup_total_insert_ne. intros ->. apply Hl.
  by eapply list_elem_of_lookup_2.
Qed.

Lemma fmap_insert_by {A B} (f : A -> B) (le : B -> B -> bool) x (l : list A) :
  f <$> insert_by (fun x y => le (f x) (f y)) x l = insert_by le (f x) (f <$> l).
Proof.
  induction l as [|y l IH]; [done|].
  rewrite fmap_cons. cbn [insert_by].
  destruct (le (f x) (f y)); rewrite !fmap_cons; [done|]. by rewrite IH.
Qed.

Lemma fmap_sort_by {A B} (f : A -> B) (le : B -> B -> bool) (l : list A) :
  f <$> sort_by (fun x y => le (f x) (f y)) l = sort_by le (f <$> l).
Proof.
  induction l as [|x l IH]; [done|].
  rewrite fmap_cons. unfold sort_by in *. cbn [foldr].
  by rewrite fmap_insert_by, IH.
Qed.

Lemma setdefault_append_fmap {A B} (f : A -> B)
    (bc : list (string * list A)) k p :
  setdefault_append ((fun kl : string * list A => (kl.1, f <$> kl.2)) <$> bc) k (f p) =
  (fun kl : string * list A => (kl.1, f <$> kl.2)) <$> setdefault_append bc k p.
Proof.
  induction bc as [|[k' l] bc IH]; [done|].
  rewrite fmap_cons. cbn [setdefault_append fst snd].
  destruct (String.eqb k' k); rewrite fmap_cons; cbn [fst snd].
  - by rewrite fmap_app.
  - by rewrite IH.
Qed.

Lemma group_by_key_fmap {A B} (f : A -> B) (key : B -> string) (l : list A) :
  group_by_key key (f <$> l) =
  (fun kl : string * list A => (kl.1, f <$> kl.2)) <$> group_by_key (fun x => key (f x)) l.
Proof.
  unfold group_by_key. induction l as [|x l IH] using rev_ind; [done|].
  rewrite fmap_app, !fold_left_app. simpl.
  by rewrite IH, setdefault_append_fmap.
Qed.

Lemma setdefault_append_Forall {A} (P : A -> Prop) bc k p :
  Forall (fun kl : string * list A => Forall P kl.2) bc -> P p ->
  Forall (fun kl : string * list A => Forall P kl.2) (setdefault_append bc k p).
Proof.
  intros Hbc Hp. induction Hbc as [|[k' l] bc Hl Hbc IH]; simpl.
  - repeat constructor; done.
  - destruct (String.eqb k' k); constructor; simpl in *; try done.
    rewrite Forall_app. by repeat constructor.
Qed.

Lemma group_by_key_Forall {A} (P : A -> Prop) (key : A -> string) l :
  Forall P l ->
  Forall (fun kl : string * list A => Forall P kl.2) (group_by_key key l).
Proof.
  unfold group_by_key. induction l as [|x l IH] using rev_ind; intros Hl.
  - constructor.
  - apply Forall_app in Hl as [Hl [Hx _]%Forall_cons].
    rewrite fold_left_app. simpl.
    apply setdefault_append_Forall; [by apply IH|done].
Qed.

(** A copy is a new dict: the state that takes it as [cur] keeps the
    invariant, whatever is already in [merged]. *)
Lemma sweep_inv_copy (h0 h : heap) merged v :
  h0 ⊆ h ->
  Forall (fun m => m ∈ dom h /\ (m ∉ dom h0)) merged ->
  sweep_inv h0 (<[fresh (dom h) := v]> h) (merged, Some (fresh (dom h))).
Proof.
  intros Hsub Hm.
  pose proof (is_fresh (dom h)) as Hfresh.
  pose proof (subseteq_dom _ _ Hsub) as Hdom.
  split; [|split]; simpl.
  - apply insert_subseteq_r; [|done]. apply not_elem_of_dom. set_solver.
  - eapply Forall_impl; [exact Hm|]. intros m [? ?]. split; [|done].
    rewrite dom_insert. set_solver.
  - intros c [= <-]. split; [|split].
    + rewrite dom_insert. set_solver.
    + set_solver.
    + intros Hin. apply Hfresh.
      by apply (proj1 (Forall_forall _ _) Hm _ Hin).
Qed.

(** A write into [cur] touches nothing that [h0] holds. *)
Lemma sweep_inv_write (h0 h : heap) merged c v :
  sweep_inv h0 h (merged, Some c) ->
  sweep_inv h0 (<[c := v]> h) (merged, Some c).
Proof.
  intros (Hsub & Hm & Hc). destruct (Hc c eq_refl) as (Hch & Hc0 & Hcm).
  split; [|split]; simpl in *.
  - apply insert_subseteq_r; [|done]. by apply not_elem_of_dom.
  - eapply Forall_impl; [exact Hm|]. intros m [? ?]. split; [|done].
    rewrite dom_insert. set_solver.
  - intros ? [= <-]. split; [|done]. rewrite dom_insert. set_solver.
Qed.

Lemma sweep_inv_emit (h0 h : heap) merged c :
  sweep_inv h0 h (merged, Some c) ->
  Forall (fun m => m ∈ dom h /\ (m ∉ dom h0)) (merged ++ [c]).
Proof.
  intros (Hsub & Hm & Hc). destruct (Hc c eq_refl) as (Hch & Hc0 & Hcm).
  rewrite Forall_app, Forall_singleton. done.
Qed.

Lemma fmap_deref_fresh (h : heap) v (ls : list loc) :
  Forall (fun m => m ∈ dom h) ls ->
  deref (<[fresh (dom h) := v]> h) <$> ls = deref h <$> ls.
Proof.
  intros Hls. apply fmap_deref_insert. intros Hin.
  apply (is_fresh (dom h)). by apply (proj1 (Forall_forall _ _) Hls).
Qed.

Lemma deref_insert (h : heap) l v : deref (<[l := v]> h) l = v.
Proof. unfold deref. apply lookup_total_insert_eq. Qed.

(** One iteration on the heap does what [clean_step] does on the dict
    values, and keeps the invariant. *)
Lemma clean_step_h_spec s (h0 h : heap) st p :
  sweep_inv h0 h st -> p ∈ dom h0 ->
  exists st' h',
    clean_step_h s st p h = Some (st', h') /\
    sweep_inv h0 h' st' /\
    (deref h' <$> st'.1, deref h' <$> st'.2) =
      clean_step s (deref h <$> st.1, deref h <$> st.2) (deref h0 p).
Proof.
  destruct st as [merged cur]. intros Hinv Hp.
  pose proof Hinv as (Hsub & Hm & Hc). simpl in Hm, Hc.
  apply elem_of_dom in Hp as [pv Hp0].
  pose proof (lookup_weaken _ _ _ _ Hp0 Hsub) as Hhp.
  rewrite (deref_lookup h0 p pv Hp0).
  assert (Hmdom : Forall (fun m => m ∈ dom h) merged).
  { eapply Forall_impl; [exact Hm|]. by intros m [? _]. }
  destruct cur as [c|]; simpl.
  2:{ unfold bind, dict_copy, ret. rewrite Hhp.
      eexists _, _. split; [done|]. split; [by apply sweep_inv_copy|].
      simpl. by rewrite fmap_deref_fresh, deref_insert. }
  destruct (Hc c eq_refl) as (Hch & Hc0 & Hcm).
  apply elem_of_dom in Hch as [cv Hhc].
  rewrite (deref_lookup h c cv Hhc).
  assert (Hpc : c <> p).
  { intros ->. apply Hc0. apply elem_of_dom. eauto. }
  unfold bind at 1. unfold dict_get at 1. rewrite Hhp.
  unfold bind at 1. unfold dict_get at 1. rewrite Hhc.
  destruct (start pv <? stop cv) eqn:Hov.
  - destruct (s =? "trim")%string.
    + destruct (start pv <=? start cv) eqn:Hct.
      * unfold bind, dict_copy, ret. rewrite Hhp.
        eexists _, _. split; [done|]. split; [by apply sweep_inv_copy|].
        simpl. by rewrite fmap_deref_fresh, deref_insert.
      * unfold bind, dict_set_stop, dict_copy, ret. rewrite Hhc.
        rewrite lookup_insert_ne by done. rewrite Hhp.
        pose proof (sweep_inv_write h0 h merged c (set_stop cv (start pv)) Hinv)
          as Hinv'.
        pose proof (sweep_inv_emit _ _ _ _ Hinv') as Hemit.
        eexists _, _. split; [done|].
        split; [apply sweep_inv_copy; [apply Hinv'|done]|].
        simpl. rewrite deref_insert.
        rewrite fmap_deref_fresh
          by (eapply Forall_impl; [exact Hemit|]; by intros m [? _]).
        rewrite fmap_app, fmap_deref_insert by done. simpl.
        by rewrite deref_insert.
    + unfold bind, dict_set_stop, dict_get, dict_set_title, ret.
      rewrite Hhc. rewrite lookup_insert_eq. rewrite lookup_insert_eq.
      rewrite insert_insert_eq.
      eexists _, _. split; [done|]. split; [by apply sweep_inv_write|].
      simpl. by rewrite fmap_deref_insert, deref_insert.
  - unfold bind, dict_copy, ret. rewrite Hhp.
    pose proof (sweep_inv_emit _ _ _ _ Hinv) as Hemit.
    eexists _, _. split; [done|]. split; [by apply sweep_inv_copy|].
    simpl. rewrite deref_insert.
    rewrite fmap_deref_fresh
      by (eapply Forall_impl; [exact Hemit|]; by intros m [? _]).
    rewrite fmap_app. simpl. by rewrite (deref_lookup h c cv Hhc).
Qed.

Lemma foldM_clean_step_h_spec s (h0 : heap) plist :
  Forall (fun p => p ∈ dom h0) plist ->
  forall h st,
    sweep_inv h0 h st ->
    exists st' h',
      foldM (clean_step_h s) plist st h = Some (st', h') /\
      sweep_inv h0 h' st' /\
      (deref h' <$> st'.1, deref h' <$> st'.2) =
        fold_left (clean_step s) (deref h0 <$> plist)
                  (deref h <$> st.1, deref h <$> st.2).
Proof.
  induction 1 as [|p plist Hp _ IH]; intros h st Hinv.
  - exists st, h. done.
  - destruct (clean_step_h_spec s h0 h st p Hinv Hp) as (st1 & h1 & Hstep & Hinv1 & Habs).
    destruct (IH h1 st1 Hinv1) as (st2 & h2 & Hfold & Hinv2 & Habs2).
    exists st2, h2. split; [|split; [done|]].
    + simpl. unfold bind. by rewrite Hstep.
    + rewrite fmap_cons. cbn [fold_left]. by rewrite <- Habs.
Qed.

(** One channel on the heap: the dicts that existed before are as they
    were, the emitted dicts are new, and their values are those of
    [clean_channel]. *)
Lemma clean_channel_h_spec s (h : heap) plist :
  Forall (fun p => p ∈ dom h) plist ->
  exists merged h',
    clean_channel_h s plist h = Some (merged, h') /\
    h ⊆ h' /\
    Forall (fun m => m ∈ dom h' /\ (m ∉ dom h)) merged /\
    deref h' <$> merged = clean_channel s (deref h <$> plist).
Proof.
  intros Hp. unfold clean_channel_h, clean_channel.
  unfold bind at 1. unfold get_heap.
  rewrite <- (fmap_sort_by (deref h) le_start).
  set (sorted := sort_by _ plist).
  assert (Hsorted : Forall (fun p => p ∈ dom h) sorted).
  { unfold sorted. by rewrite sort_by_Permutation. }
  destruct (foldM_clean_step_h_spec s h sorted Hsorted h ([], None))
    as ([merged cur] & h' & Hfold & (Hsub & Hm & Hc) & Habs).
  { split; [done|]. split; [constructor|done]. }
  unfold bind. fold (deref h). fold sorted. rewrite Hfold. unfold ret.
  simpl in *. rewrite <- Habs.
  eexists _, _. split; [done|]. split; [done|].
  destruct cur as [c|]; simpl; [|done].
  destruct (Hc c eq_refl) as (? & ? & ?).
  rewrite Forall_app, Forall_singleton, fmap_app. done.
Qed.

Lemma foldM_channels_spec s (h0 : heap) (bc : list (string * list loc)) :
  Forall (fun kl : string * list loc => Forall (fun p => p ∈ dom h0) kl.2) bc ->
  forall (h : heap) cleaned,
    h0 ⊆ h ->
    Forall (fun m => m ∈ dom h /\ (m ∉ dom h0)) cleaned ->
    exists cleaned' h',
      foldM (fun cleaned (entry : string * list loc) =>
               let* merged := clean_channel_h s entry.2 in
               ret (cleaned ++ merged)) bc cleaned h = Some (cleaned', h') /\
      h0 ⊆ h' /\
      Forall (fun m => m ∈ dom h' /\ (m ∉ dom h0)) cleaned' /\
      deref h' <$> cleaned' =
        fold_left (fun cl '(chan, plist) => cl ++ clean_channel s plist)
          ((fun kl : string * list loc => (kl.1, deref h0 <$> kl.2)) <$> bc)
          (deref h <$> cleaned).
Proof.
  induction 1 as [|[k plist] bc Hk _ IH]; intros h cleaned Hsub Hcl.
  - exists cleaned, h. done.
  - simpl in Hk.
    pose proof (subseteq_dom _ _ Hsub) as Hdom.
    assert (Hk' : Forall (fun p => p ∈ dom h) plist).
    { eapply Forall_impl; [exact Hk|]. set_solver. }
    destruct (clean_channel_h_spec s h plist Hk')
      as (merged & h1 & Hchan & Hsub1 & Hm & Habs).
    pose proof (subseteq_dom _ _ Hsub1) as Hdom1.
    destruct (IH h1 (cleaned ++ merged)) as (cl2 & h2 & Hfold & Hsub2 & Hcl2 & Habs2).
    { by transitivity h. }
    { rewrite Forall_app. split.
      - eapply Forall_impl; [exact Hcl|]. set_solver.
      - eapply Forall_impl; [exact Hm|]. set_solver. }
    exists cl2, h2. split; [|split; [done|split; [done|]]].
    + simpl. unfold bind at 1. unfold bind at 1. simpl. rewrite Hchan.
      unfold ret at 1. exact Hfold.
    + rewrite Habs2, fmap_cons. simpl. f_equal.
      rewrite fmap_app, Habs. f_equal.
      * apply fmap_deref_subseteq; [done|].
        eapply Forall_impl; [exact Hcl|]. by intros m [? _].
      * f_equal. by apply fmap_deref_subseteq.
Qed.

(** The heap model computes the values of the pure one, on new dicts,
    and leaves every dict that existed before the call as it was. *)
Lemma clean_overlaps_h_spec (h : heap) programmes strategy :
  Forall (fun p => p ∈ dom h) programmes ->
  exists out h',
    clean_overlaps_h programmes strategy h = Some (out, h') /\
    h ⊆ h' /\
    Forall (fun m => m ∈ dom h' /\ (m ∉ dom h)) out /\
    deref h' <$> out = clean_overlaps (deref h <$> programmes) strategy.
Proof.
  intros Hp. unfold clean_overlaps_h, clean_overlaps.
  unfold bind at 1. unfold get_heap at 1.
  destruct (foldM_channels_spec strategy h
              (group_by_key (fun p => channel (h !!! p)) programmes)
              (group_by_key_Forall _ _ _ Hp) h []) as (cl & h' & Hfold & Hsub & Hcl & Habs);
    [done|constructor|].
  unfold bind at 1. rewrite Hfold. unfold bind, get_heap, ret.
  eexists _, _. split; [done|]. split; [done|]. split.
  - by rewrite sort_by_Permutation.
  - fold (deref h'). rewrite (fmap_sort_by (deref h') le_channel_start).
    rewrite Habs. unfold group_by_channel.
    by rewrite (group_by_key_fmap (deref h) channel).
Qed.

(** C10. The cleaner never mutates its input. On any heap in which the
    input references are allocated (the same dict may occur several times
    in the list), [clean_overlaps] returns, every dict that existed before
    the call, so every input programme dict, holds exactly the values it
    held before, every returned reference is a dict allocated during the
    call, and the returned dicts hold the values the value-level model
    computes. *)
Theorem clean_overlaps_input_unchanged (h : heap) programmes strategy :
  (forall p, p ∈ programmes -> is_Some (h !! p)) ->
  exists out h',
    clean_overlaps_h programmes strategy h = Some (out, h') /\
    (forall p, p ∈ programmes -> h' !! p = h !! p) /\
    (forall l v, h !! l = Some v -> h' !! l = Some v) /\
    (forall l, l ∈ out -> h !! l = None /\ is_Some (h' !! l)) /\
    deref h' <$> out = clean_overlaps (deref h <$> programmes) strategy.
Proof.
  intros Hp.
  destruct (clean_overlaps_h_spec h programmes strategy)
    as (out & h' & Hrun & Hsub & Hout & Habs).
  { apply Forall_forall. intros p Hin. apply elem_of_dom. by apply Hp. }
  exists out, h'. split; [done|]. split; [|split; [|split; [|done]]].
  - intros p Hin. destruct (Hp p Hin) as [v Hv]. rewrite Hv.
    by eapply lookup_weaken.
  - intros l v Hv. by eapply lookup_weaken.
  - intros l Hl. rewrite Forall_forall in Hout.
    destruct (Hout l Hl) as [Hin Hnot].
    split; [by apply not_elem_of_dom|by apply elem_of_dom].
Qed.

Lemma clean_overlaps_input_unchanged_witness :
  let h : heap :=
    <[1%positive := prog "c" 0 50 "A"]>
      (<[2%positive := prog "c" 30 80 "B"]> ∅) in
  let programmes := [1%positive; 2%positive; 1%positive] in
  exists out h',
    clean_overlaps_h programmes "trim" h = Some (out, h') /\
    (forall p, p ∈ programmes -> h' !! p = h !! p) /\
    (forall l v, h !! l = Some v -> h' !! l = Some v) /\
    (forall l, l ∈ out -> h !! l = None /\ is_Some (h' !! l)) /\
    deref h' <$> out = clean_overlaps (deref h <$> programmes) "trim".
Proof.
  apply (clean_overlaps_input_unchanged
           (<[1%positive := prog "c" 0 50 "A"]>
              (<[2%positive := prog "c" 30 80 "B"]> ∅))
           [1%positive; 2%positive; 1%positive] "trim").
  intros p Hin.
  repeat (apply elem_of_cons in Hin as [-> | Hin]; [by eexists|]).
  by apply not_elem_of_nil in Hin.
Defined.

(** ** The time formatter *)

(** A check that holds on [a .. a+n-1] by evaluation holds there. *)
Lemma all_from_spec (P : Z -> bool) (n : nat) (a : Z) :
  all_from P n a = true ->
  forall v, a <= v < a + Z.of_nat n -> P v = true.
Proof.
  revert a. induction n as [|n IH]; intros a Hall v Hv; [lia|].
  simpl in Hall. destruct (P a) eqn:Ha; [|done].
  destruct (decide (v = a)) as [->|Hne]; [done|].
  apply (IH (a + 1)); [done|lia].
Qed.

Lemma zfill_2_digits v :
  0 <= v < 100 -> fixed_decimal 2 v (zfill 2 (str_int v)) = true.
Proof.
  apply (all_from_spec (fun v => fixed_decimal 2 v (zfill 2 (str_int v)))
                       100 0).
  vm_compute. reflexivity.
Qed.

Lemma zfill_4_digits v :
  0 <= v < 10000 -> fixed_decimal 4 v (zfill 4 (str_int v)) = true.
Proof.
  apply (all_from_spec (fun v => fixed_decimal 4 v (zfill 4 (str_int v)))
                       (Z.to_nat 10000) 0).
  vm_compute. reflexivity.
Qed.

(** *** The calendar *)

Lemma is_leap_shift y k : is_leap (y + 400 * k) = is_leap y.
Proof.
  unfold is_leap.
  replace ((y + 400 * k) mod 4) with (y mod 4)
    by (replace (y + 400 * k) with (y + (100 * k) * 4) by lia;
        by rewrite Z_mod_plus_full).
  replace ((y + 400 * k) mod 100) with (y mod 100)
    by (replace (y + 400 * k) with (y + (4 * k) * 100) by lia;
        by rewrite Z_mod_plus_full).
  replace ((y + 400 * k) mod 400) with (y mod 400)
    by (replace (y + 400 * k) with (y + k * 400) by lia;
        by rewrite Z_mod_plus_full).
  done.
Qed.

Lemma days_before_year_shift y k :
  days_before_year (y + 400 * k) = days_before_year y + 146097 * k.
Proof. unfold days_before_year. cbv zeta. Z.div_mod_to_equations. lia. Qed.

Lemma ymd2ord_shift y m d k :
  ymd2ord (y + 400 * k) m d = ymd2ord y m d + 146097 * k.
Proof.
  unfold ymd2ord, days_before_month.
  rewrite days_before_year_shift, is_leap_shift. lia.
Qed.

Lemma days_in_month_shift y m k :
  days_in_month (y + 400 * k) m = days_in_month y m.
Proof. unfold days_in_month. by rewrite is_leap_shift. Qed.

(** The date of an ordinal is the date within its 400-year cycle. *)
Lemma ord2ymd_shift n :
  ord2ymd n =
    let '(y, m, d) := ord2ymd ((n - 1) mod 146097 + 1) in
    (y + 400 * ((n - 1) / 146097), m, d).
Proof.
  pose proof (Z.mod_pos_bound (n - 1) 146097 ltac:(lia)) as Hr.
  unfold ord2ymd. cbv zeta.
  replace ((n - 1) mod 146097 + 1 - 1) with ((n - 1) mod 146097) by lia.
  rewrite (Z.div_small ((n - 1) mod 146097) 146097) by lia.
  rewrite (Z.mod_small ((n - 1) mod 146097) 146097) by lia.
  repeat
    lazymatch goal with
    | |- context [if ?c then _ else _] => destruct c
    end;
    cbn [fst snd]; f_equal; try f_equal; lia.
Qed.

Lemma ord2ymd_cycle r :
  0 <= r < 146097 -> check_ord r = true.
Proof.
  apply (all_from_spec check_ord (Z.to_nat 146097) 0).
  vm_compute. reflexivity.
Qed.

(** [ord2ymd] inverts [ymd2ord] and gives a valid date, for every
    ordinal. *)
Lemma ord2ymd_spec n :
  let '(y, m, d) := ord2ymd n in
  1 <= m <= 12 /\ 1 <= d <= days_in_month y m /\ ymd2ord y m d = n /\
  days_before_year y < n <= days_before_year (y + 1).
Proof.
  pose proof (Z.mod_pos_bound (n - 1) 146097 ltac:(lia)) as Hr.
  pose proof (Z.div_mod (n - 1) 146097 ltac:(lia)) as Hn.
  pose proof (ord2ymd_cycle _ Hr) as Hcheck.
  rewrite ord2ymd_shift. unfold check_ord in Hcheck.
  destruct (ord2ymd ((n - 1) mod 146097 + 1)) as [[y m] d].
  rewrite !andb_true_iff in Hcheck.
  destruct Hcheck as ((((((((Hy1 & Hy2) & Hm1) & Hm2) & Hd1) & Hd2) & Hord) & Hlo) & Hhi).
  rewrite days_in_month_shift, ymd2ord_shift, days_before_year_shift.
  replace (y + 400 * ((n - 1) / 146097) + 1)
    with (y + 1 + 400 * ((n - 1) / 146097)) by lia.
  rewrite days_before_year_shift. lia.
Qed.

Lemma year_of_ordinal_bounds y n :
  days_before_year y < n <= days_before_year (y + 1) ->
  364878 <= n <= 3652059 -> 1000 <= y <= 9999.
Proof.
  unfold days_before_year. cbv zeta. intros Hy Hn.
  Z.div_mod_to_equations. lia.
Qed.

(** Within the years 1000..9999 the wall clock exists, its fields are a
    valid date and time, and they denote the given second. *)
Lemma datetime_of_seconds_spec secs off :
  -30610224000 <= secs < 253402300800 ->
  exists dt,
    datetime_of_seconds secs off = Some dt /\ utcoffset dt = off /\
    1000 <= year dt <= 9999 /\ 1 <= month dt <= 12 /\
    1 <= day dt <= days_in_month (year dt) (month dt) /\
    0 <= hour dt < 24 /\ 0 <= minute dt < 60 /\ 0 <= second dt < 60 /\
    (ymd2ord (year dt) (month dt) (day dt) - EPOCH_ORD) * 86400
      + hour dt * 3600 + minute dt * 60 + second dt = secs.
Proof.
  intros Hsecs. unfold datetime_of_seconds. cbv zeta.
  assert (Hord : 364878 <= EPOCH_ORD + secs / 86400 <= 3652059).
  { unfold EPOCH_ORD. Z.div_mod_to_equations. lia. }
  assert ((1 <=? EPOCH_ORD + secs / 86400)
          && (EPOCH_ORD + secs / 86400 <=? MAXORD) = true) as ->.
  { unfold MAXORD. lia. }
  pose proof (ord2ymd_spec (EPOCH_ORD + secs / 86400)) as Hymd.
  destruct (ord2ymd (EPOCH_ORD + secs / 86400)) as [[y m] d].
  destruct Hymd as (Hm & Hd & Hinv & Hy).
  pose proof (year_of_ordinal_bounds y _ Hy Hord) as Hyear.
  eexists. split; [done|]. simpl. rewrite Hinv.
  split; [done|]. split; [done|]. split; [done|]. split; [done|].
  unfold EPOCH_ORD. Z.div_mod_to_equations. lia.
Qed.

Lemma datetime_of_seconds_in_range secs off :
  -62135596800 <= secs < 253402300800 ->
  is_Some (datetime_of_seconds secs off).
Proof.
  intros Hsecs. unfold datetime_of_seconds. cbv zeta.
  assert ((1 <=? EPOCH_ORD + secs / 86400)
          && (EPOCH_ORD + secs / 86400 <=? MAXORD) = true) as ->.
  { unfold EPOCH_ORD, MAXORD. Z.div_mod_to_equations. lia. }
  destruct (ord2ymd _) as [[y m] d]. done.
Qed.

(** *** The rendered string *)

Lemma string_app_assoc (a b c : string) : (a +:+ b) +:+ c = a +:+ b +:+ c.
Proof.
  induction a as [|x a IH]; [done|].
  change (String x ((a +:+ b) +:+ c) = String x (a +:+ b +:+ c)).
  by f_equal.
Qed.

Lemma string_length_app (a b : string) :
  String.length (a +:+ b) = (String.length a + String.length b)%nat.
Proof.
  induction a as [|x a IH]; [done|].
  change (S (String.length (a +:+ b)) =
          S (String.length a + String.length b)).
  by f_equal.
Qed.

Lemma fixed_decimal_length w v s :
  fixed_decimal w v s = true -> String.length s = w.
Proof.
  unfold fixed_decimal. intros [Hlen _]%andb_true_iff.
  by apply Nat.eqb_eq.
Qed.

Lemma fixed_decimal_value w v s :
  fixed_decimal w v s = true -> digits_value s 0 = Some v.
Proof.
  unfold fixed_decimal. intros [_ Hv]%andb_true_iff.
  destruct (digits_value s 0) as [v'|]; [|done].
  f_equal. by apply Z.eqb_eq.
Qed.

Lemma xmltv_rendering_length local off s :
  xmltv_rendering local off s -> String.length s = 20%nat.
Proof.
  intros (y & mo & d & hh & mi & ss & oh & om & sY & sMo & sD & sH & sMi & sS
          & sign & sOH & sOM & -> & HY & HMo & HD & HH & HMi & HS & _ & _ & _
          & _ & _ & _ & Hsign & HOH & HOM & _).
  rewrite !string_length_app.
  rewrite (fixed_decimal_length _ _ _ HY), (fixed_decimal_length _ _ _ HMo),
    (fixed_decimal_length _ _ _ HD), (fixed_decimal_length _ _ _ HH),
    (fixed_decimal_length _ _ _ HMi), (fixed_decimal_length _ _ _ HS),
    (fixed_decimal_length _ _ _ HOH), (fixed_decimal_length _ _ _ HOM).
  by destruct Hsign as [[-> _]|[-> _]].
Qed.

Lemma xmltv_rendering_intro local off y mo d hh mi ss oh om
    (sY sMo sD sH sMi sS sign sOH sOM : string) :
  fixed_decimal 4 y sY = true -> fixed_decimal 2 mo sMo = true ->
  fixed_decimal 2 d sD = true -> fixed_decimal 2 hh sH = true ->
  fixed_decimal 2 mi sMi = true -> fixed_decimal 2 ss sS = true ->
  1 <= mo <= 12 -> 1 <= d <= days_in_month y mo ->
  0 <= hh < 24 -> 0 <= mi < 60 -> 0 <= ss < 60 ->
  (ymd2ord y mo d - EPOCH_ORD) * 86400 + hh * 3600 + mi * 60 + ss = local ->
  (sign = "+" /\ 0 <= off \/ sign = "-" /\ off < 0) ->
  fixed_decimal 2 oh sOH = true -> fixed_decimal 2 om sOM = true ->
  0 <= oh < 24 -> 0 <= om < 60 ->
  (oh * 60 + om) * 60 <= Z.abs off < (oh * 60 + om + 1) * 60 ->
  xmltv_rendering local off
    ((sY +:+ sMo +:+ sD +:+ sH +:+ sMi +:+ sS)
     +:+ " " +:+ sign +:+ sOH +:+ sOM).
Proof.
  intros. exists y, mo, d, hh, mi, ss, oh, om, sY, sMo, sD, sH, sMi, sS,
    sign, sOH, sOM.
  split; [by rewrite !string_app_assoc|].
  split_and!; (assumption || lia).
Qed.

Lemma string_length_2 (s : string) :
  String.length s = 2%nat -> exists a b, s = String a (String b "").
Proof. destruct s as [|a [|b [|c s]]]; try done. eauto. Qed.

Lemma string_length_4 (s : string) :
  String.length s = 4%nat ->
  exists a b c d, s = String a (String b (String c (String d ""))).
Proof. destruct s as [|a [|b [|c [|d [|e s]]]]]; try done. eauto 6. Qed.

(** C9, as the spec states it, fails in two ways. An instant outside the
    years 1..9999 has no [datetime]: the formatter raises instead of
    rendering. And a negative offset that is not a whole number of minutes
    is rounded away from zero: the offset -4:56:02 is rendered as -0457,
    which is not its hours and minutes. *)
Lemma xmltv_time_counterexample :
  xmltv_time 253402300800 (fun _ => 0) = None /\
  xmltv_time 0 (fun _ => -17762) = Some "19691231190358 -0457" /\
  Z.abs (-17762) = 4 * 3600 + 56 * 60 + 2 /\
  ~ xmltv_rendering (0 + -17762) (-17762) "19691231190358 -0457".
Proof.
  split; [reflexivity|]. split; [reflexivity|]. split; [reflexivity|].
  intros (y & mo & d & hh & mi & ss & oh & om & sY & sMo & sD & sH & sMi & sS
          & sign & sOH & sOM & Hs & HY & HMo & HD & HH & HMi & HS & _ & _ & _
          & _ & _ & _ & Hsign & HOH & HOM & Hoh & Hom & Hoff).
  destruct (string_length_4 _ (fixed_decimal_length _ _ _ HY))
    as (y1 & y2 & y3 & y4 & ->).
  destruct (string_length_2 _ (fixed_decimal_length _ _ _ HMo)) as (? & ? & ->).
  destruct (string_length_2 _ (fixed_decimal_length _ _ _ HD)) as (? & ? & ->).
  destruct (string_length_2 _ (fixed_decimal_length _ _ _ HH)) as (? & ? & ->).
  destruct (string_length_2 _ (fixed_decimal_length _ _ _ HMi)) as (? & ? & ->).
  destruct (string_length_2 _ (fixed_decimal_length _ _ _ HS)) as (? & ? & ->).
  destruct (string_length_2 _ (fixed_decimal_length _ _ _ HOH)) as (? & ? & ->).
  destruct (string_length_2 _ (fixed_decimal_length _ _ _ HOM)) as (? & ? & ->).
  assert (Hoh' : oh = 4 /\ om = 57).
  { destruct Hsign as [[-> _]|[-> _]]; cbv [String.append] in Hs;
      simplify_eq.
    apply fixed_decimal_value in HOH, HOM.
    vm_compute in HOH, HOM. by simplify_eq. }
  lia.
Qed.

(** C9, amended. For every Unix-seconds instant within [datetime]'s range
    whose local wall-clock time lies in the years 1000..9999, and every
    time zone whose UTC offset at that instant (shorter than a day, as
    every offset is) is non-negative or a whole number of minutes, the
    formatter returns the 14-digit local wall-clock string YYYYMMDDhhmmss,
    a single space, and the offset as a sign ('+' or '-') followed by the
    zero-padded hours and minutes HHMM: 20 characters in all. Years before 1000 are left out because the padding
    of the year there depends on the platform's [strftime]. *)
Theorem xmltv_time_format (ts : Z) (tz : ZoneInfo) :
  -62135596800 <= ts < 253402300800 ->
  -30610224000 <= ts + tz ts < 253402300800 ->
  -86400 < tz ts < 86400 ->
  0 <= tz ts \/ tz ts mod 60 = 0 ->
  exists s,
    xmltv_time ts tz = Some s /\
    xmltv_rendering (ts + tz ts) (tz ts) s /\
    String.length s = 20%nat.
Proof.
  intros Hts Hlocal Hoff Hmin.
  destruct (datetime_of_seconds_in_range ts 0 Hts) as [dt0 Hdt0].
  destruct (datetime_of_seconds_spec (ts + tz ts) (tz ts) Hlocal)
    as (dt & Hdt & Hoffdt & Hy & Hmo & Hd & Hhh & Hmi & Hss & Hinst).
  assert (Hday : day dt <= 31).
  { destruct Hd as [_ Hd]. revert Hd. unfold days_in_month.
    assert (Hcases : month dt = 1 \/ month dt = 2 \/ month dt = 3 \/
              month dt = 4 \/ month dt = 5 \/ month dt = 6 \/
              month dt = 7 \/ month dt = 8 \/ month dt = 9 \/
              month dt = 10 \/ month dt = 11 \/ month dt = 12) by lia.
    destruct Hcases as [->|[->|[->|[->|[->|[->|[->|[->|[->|[->|[->| ->]]]]]]]]]]];
      simpl; try destruct (is_leap (year dt)); simpl; lia. }
  assert (Hoh : 0 <= Z.abs (tz ts / 60) / 60 < 24)
    by (Z.div_mod_to_equations; lia).
  assert (Hom : 0 <= Z.abs (tz ts / 60) mod 60 < 60)
    by (Z.div_mod_to_equations; lia).
  assert (Hrender : xmltv_rendering (ts + tz ts) (tz ts)
    (strftime_YmdHMS dt +:+ " "
     +:+ (if 0 <=? tz ts / 60 then "+" else "-")
     +:+ zfill 2 (str_int (Z.abs (tz ts / 60) / 60))
     +:+ zfill 2 (str_int (Z.abs (tz ts / 60) mod 60)))).
  { unfold strftime_YmdHMS.
    apply (xmltv_rendering_intro (ts + tz ts) (tz ts)
             (year dt) (month dt) (day dt) (hour dt) (minute dt) (second dt)
             (Z.abs (tz ts / 60) / 60) (Z.abs (tz ts / 60) mod 60)).
    - apply zfill_4_digits. lia.
    - apply zfill_2_digits. lia.
    - apply zfill_2_digits. lia.
    - apply zfill_2_digits. lia.
    - apply zfill_2_digits. lia.
    - apply zfill_2_digits. lia.
    - done.
    - done.
    - done.
    - done.
    - done.
    - done.
    - destruct (0 <=? tz ts / 60) eqn:Hsign; [left|right]; (split; [done|]);
        Z.div_mod_to_equations; lia.
    - apply zfill_2_digits. lia.
    - apply zfill_2_digits. lia.
    - done.
    - done.
    - Z.div_mod_to_equations. lia. }
  eexists. split; [|split; [exact Hrender|]].
  - unfold xmltv_time, dt_from_ts. rewrite Hdt0, Hdt. cbv zeta.
    by rewrite Hoffdt.
  - by eapply xmltv_rendering_length.
Qed.

Lemma xmltv_time_format_witness :
  exists s,
    xmltv_time 0 (fun _ => 28800) = Some s /\
    xmltv_rendering (0 + 28800) 28800 s /\
    String.length s = 20%nat.
Proof.
  apply (xmltv_time_format 0 (fun _ => 28800)); [lia|lia|lia|left; lia].
Defined.

Lemma xmltv_time_example :
  xmltv_time 0 (fun _ => 28800) = Some "19700101080000 +0800" /\
  xmltv_time 1700000000 (fun _ => -18000) = Some "20231114171320 -0500".
Proof. split; reflexivity. Qed.
(** * Further properties *)

(** ** The cleaner: what it keeps and what it never does *)

(** Induction over a left fold that remembers the elements consumed. *)
Lemma fold_left_prefix_ind {A S} (f : S -> A -> S)
    (I : list A -> S -> Prop) (l : list A) (s0 : S) :
  I [] s0 ->
  (forall done x rest st,
     l = done ++ x :: rest -> I done st -> I (done ++ [x]) (f st x)) ->
  I l (fold_left f l s0).
Proof.
  intros H0 Hstep.
  cut (forall rest done st,
         l = done ++ rest -> I done st -> I l (fold_left f rest st)).
  { intros H. by apply (H l [] s0). }
  induction rest as [|x rest IH]; intros done st Hl HI; simpl.
  - by rewrite Hl, app_nil_r.
  - apply (IH (done ++ [x])); [by rewrite <- app_assoc|].
    by eapply Hstep.
Qed.

(** The emitted list of a sweep state. *)
Lemma clean_channel_unfold s l :
  clean_channel s l =
    (fold_left (clean_step s) (sort_by le_start l) ([], None)).1
    ++ option_list (fold_left (clean_step s) (sort_by le_start l) ([], None)).2.
Proof.
  unfold clean_channel.
  destruct (fold_left _ _ _) as [merged [c|]]; simpl; [done|].
  by rewrite app_nil_r.
Qed.

(** An output programme lies in the sweep of its own channel. *)
Lemma elem_of_clean_overlaps ps s q :
  q ∈ clean_overlaps ps s <->
  q ∈ clean_channel s (filter (on_channel (channel q)) ps).
Proof.
  rewrite <- clean_overlaps_channel, list_elem_of_filter.
  unfold on_channel. naive_solver.
Qed.

Lemma elem_of_sort_by_start (l : list programme) p :
  p ∈ sort_by le_start l <-> p ∈ l.
Proof. by rewrite sort_by_Permutation. Qed.

(** X1. The output is sorted by (channel id, start instant): of two
    output programmes the earlier one has the smaller channel id, or the
    same channel id and a start that is not later. *)
Theorem clean_overlaps_sorted ps strategy :
  StronglySorted
    (fun a b => String.compare (channel a) (channel b) = Lt \/
                (channel a = channel b /\ start a <= start b))
    (clean_overlaps ps strategy).
Proof.
  pose proof (sort_by_StronglySorted le_channel_start
                le_channel_start_total le_channel_start_trans) as Hs.
  unfold clean_overlaps.
  set (cleaned := fold_left _ _ _). specialize (Hs cleaned).
  induction Hs as [|a l Hs IH Ha]; constructor; [done|].
  eapply Forall_impl; [exact Ha|]. intros b. unfold le_rel, le_channel_start.
  destruct (String.compare (channel a) (channel b)) eqn:Hc; [|auto|done].
  apply String.compare_eq_iff in Hc. intros Hle. right. split; [done|lia].
Qed.

Lemma same_but_stop_title_refl p : same_but_stop_title p p.
Proof. by destruct p. Qed.

Lemma same_but_stop_title_set_stop x c v :
  same_but_stop_title x c -> same_but_stop_title x (set_stop c v).
Proof.
  unfold same_but_stop_title, set_title, set_stop.
  destruct c, x; simpl. intros [= -> -> -> -> -> -> -> -> ->]. done.
Qed.

Lemma same_but_stop_title_set_title x c t :
  same_but_stop_title x c -> same_but_stop_title x (set_title c t).
Proof.
  unfold same_but_stop_title, set_title, set_stop.
  destruct c, x; simpl. intros [= -> -> -> -> -> -> -> -> ->]. done.
Qed.

(** Only [stop] and [title] of a programme are ever rewritten. *)
Lemma clean_step_fields s st p done :
  Forall (fun q => exists x, x ∈ done /\ same_but_stop_title x q) st.1 ->
  (forall c, st.2 = Some c -> exists x, x ∈ done /\ same_but_stop_title x c) ->
  Forall (fun q => exists x, x ∈ done ++ [p] /\ same_but_stop_title x q)
         (clean_step s st p).1 /\
  (forall c, (clean_step s st p).2 = Some c ->
     exists x, x ∈ done ++ [p] /\ same_but_stop_title x c).
Proof.
  destruct st as [merged cur]. simpl. intros Hm Hc.
  assert (Hm' : Forall (fun q => exists x, x ∈ done ++ [p] /\
                                  same_but_stop_title x q) merged).
  { eapply Forall_impl; [exact Hm|]. intros q (x & Hx & Hq).
    exists x. split; [|done]. apply elem_of_app. by left. }
  assert (Hp : exists x, x ∈ done ++ [p] /\ same_but_stop_title x p).
  { exists p. split; [apply elem_of_app; right; by left|].
    apply same_but_stop_title_refl. }
  destruct cur as [c|]; simpl.
  2:{ split; [done|]. by intros ? [= <-]. }
  destruct (Hc c eq_refl) as (x & Hx & Hxc).
  assert (Hx' : x ∈ done ++ [p]) by (apply elem_of_app; by left).
  repeat case_match; simpl;
    (split; [rewrite ?Forall_app, ?Forall_singleton|intros ? [= <-]]);
    try done; try (split; [done|]); eauto;
    exists x; (split; [done|]); unfold absorb;
    auto using same_but_stop_title_set_stop, same_but_stop_title_set_title.
Qed.

Lemma clean_channel_fields s l q :
  q ∈ clean_channel s l -> exists p, p ∈ l /\ same_but_stop_title p q.
Proof.
  rewrite clean_channel_unfold.
  pose proof (fold_left_prefix_ind (clean_step s)
    (fun done st =>
       Forall (fun q => exists x, x ∈ done /\ same_but_stop_title x q) st.1 /\
       (forall c, st.2 = Some c ->
          exists x, x ∈ done /\ same_but_stop_title x c))
    (sort_by le_start l) ([], None)) as Hind.
  destruct Hind as [Hm Hc].
  - split; [constructor|done].
  - intros done x rest st _ [Hm Hc]. by apply clean_step_fields.
  - intros [Hq|Hq]%elem_of_app.
    + rewrite Forall_forall in Hm. destruct (Hm q Hq) as (p & Hp & Hpq).
      exists p. by rewrite <- elem_of_sort_by_start.
    + destruct (fold_left _ _ _).2 as [c|] eqn:Hcur; [|by apply not_elem_of_nil in Hq].
      apply list_elem_of_singleton in Hq as ->.
      destruct (Hc c eq_refl) as (p & Hp & Hpq).
      exists p. by rewrite <- elem_of_sort_by_start.
Qed.

Lemma clean_overlaps_from_input ps s q :
  q ∈ clean_overlaps ps s -> exists p, p ∈ ps /\ same_but_stop_title p q.
Proof.
  intros Hq%elem_of_clean_overlaps.
  destruct (clean_channel_fields _ _ _ Hq)
    as (p & [_ Hp]%list_elem_of_filter & Hpq).
  by exists p.
Qed.

(** X2. Every output programme is an input programme of which at most the
    stop and the title were rewritten: channel, start, tag, category,
    poster, iframe, viewers, id and m3u8 are those of that input
    programme. The cleaner invents no channel and no start instant. *)
Theorem clean_overlaps_fields_kept ps strategy q :
  q ∈ clean_overlaps ps strategy ->
  exists p, p ∈ ps /\
    channel q = channel p /\ start q = start p /\ tag q = tag p /\
    category q = category p /\ poster q = poster p /\ iframe q = iframe p /\
    viewers q = viewers p /\ id q = id p /\ m3u8 q = m3u8 p.
Proof.
  intros Hq. destruct (clean_overlaps_from_input _ _ _ Hq) as (p & Hp & Hpq).
  exists p. split; [done|]. unfold same_but_stop_title in Hpq.
  rewrite Hpq. done.
Qed.

Lemma clean_overlaps_fields_kept_witness :
  exists p, p ∈ [prog "c" 0 50 "A"; prog "c" 30 80 "B"] /\
    channel (prog "c" 0 30 "A") = channel p /\
    start (prog "c" 0 30 "A") = start p /\ tag (prog "c" 0 30 "A") = tag p /\
    category (prog "c" 0 30 "A") = category p /\
    poster (prog "c" 0 30 "A") = poster p /\
    iframe (prog "c" 0 30 "A") = iframe p /\
    viewers (prog "c" 0 30 "A") = viewers p /\ id (prog "c" 0 30 "A") = id p /\
    m3u8 (prog "c" 0 30 "A") = m3u8 p.
Proof.
  apply (clean_overlaps_fields_kept
           [prog "c" 0 50 "A"; prog "c" 30 80 "B"] "trim" (prog "c" 0 30 "A")).
  vm_compute. left.
Defined.

(** Under 'trim' the current programme is always an unchanged copy, and an
    emitted one is unchanged or cut at the start of the programme that
    follows it. *)
Lemma clean_channel_trim_shape l q :
  q ∈ clean_channel "trim" l ->
  exists p, p ∈ l /\
    (q = p \/
     exists p', p' ∈ l /\ start p < start p' < stop p /\
                q = set_stop p (start p')).
Proof.
  rewrite clean_channel_unfold.
  pose proof (fold_left_prefix_ind (clean_step "trim")
    (fun done st =>
       Forall (fun q => exists p, p ∈ done /\
                 (q = p \/
                  exists p', p' ∈ done /\ start p < start p' < stop p /\
                             q = set_stop p (start p'))) st.1 /\
       (forall c, st.2 = Some c -> c ∈ done))
    (sort_by le_start l) ([], None)) as Hind.
  destruct Hind as [Hm Hc].
  - split; [constructor|done].
  - intros done x rest [merged cur] _ [Hm Hc]. simpl in *.
    assert (Hm' : Forall (fun q => exists p, p ∈ done ++ [x] /\
                 (q = p \/
                  exists p', p' ∈ done ++ [x] /\ start p < start p' < stop p /\
                             q = set_stop p (start p'))) merged).
    { eapply Forall_impl; [exact Hm|]. intros q' (p & Hp & Hq').
      exists p. split; [set_solver|].
      destruct Hq' as [->|(p' & Hp' & Hlt & ->)]; [by left|].
      right. exists p'. split; [set_solver|done]. }
    assert (Hx : x ∈ done ++ [x]) by set_solver.
    destruct cur as [c|]; simpl; [|split; [done|by intros ? [= <-]]].
    specialize (Hc c eq_refl).
    assert (Hc' : c ∈ done ++ [x]) by set_solver.
    destruct (start x <? stop c) eqn:Hov; simpl.
    + destruct (start x <=? start c) eqn:Hct; simpl.
      * split; [done|by intros ? [= <-]].
      * split; [|by intros ? [= <-]].
        rewrite Forall_app, Forall_singleton. split; [done|].
        exists c. split; [done|]. right. exists x. split; [done|].
        split; [lia|done].
    + split; [|by intros ? [= <-]].
      rewrite Forall_app, Forall_singleton. split; [done|].
      exists c. split; [done|]. by left.
  - assert (Hweak : forall q, (exists p, p ∈ sort_by le_start l /\
                 (q = p \/
                  exists p', p' ∈ sort_by le_start l /\
                             start p < start p' < stop p /\
                             q = set_stop p (start p'))) ->
              exists p, p ∈ l /\
                 (q = p \/
                  exists p', p' ∈ l /\ start p < start p' < stop p /\
                             q = set_stop p (start p'))).
    { intros q' (p & Hp & Hq'). apply (proj1 (elem_of_sort_by_start l p)) in Hp.
      exists p. split; [done|].
      destruct Hq' as [->|(p' & Hp' & Hlt & ->)]; [by left|].
      apply (proj1 (elem_of_sort_by_start l p')) in Hp'. right; eauto. }
    intros [Hq|Hq]%elem_of_app.
    + rewrite Forall_forall in Hm. by apply Hweak, Hm.
    + destruct (fold_left _ _ _).2 as [c|] eqn:Hcur;
        [|by apply not_elem_of_nil in Hq].
      apply list_elem_of_singleton in Hq as ->.
      exists c. split; [|by left]. apply elem_of_sort_by_start. by apply Hc.
Qed.

(** X3. Under 'trim' every output programme is an input programme as it
    was, or an input programme whose stop was lowered to the start of
    another input programme of the same channel that starts strictly
    inside it; nothing else of it is changed. *)
Theorem clean_overlaps_trim_shape ps q :
  q ∈ clean_overlaps ps "trim" ->
  exists p, p ∈ ps /\
    (q = p \/
     exists p', p' ∈ ps /\ channel p' = channel p /\
                start p < start p' < stop p /\ q = set_stop p (start p')).
Proof.
  intros Hq%elem_of_clean_overlaps.
  destruct (clean_channel_trim_shape _ _ Hq)
    as (p & [Hpc Hp]%list_elem_of_filter & Hshape).
  exists p. split; [done|].
  destruct Hshape as [->|(p' & [Hpc' Hp']%list_elem_of_filter & Hlt & ->)];
    [by left|].
  right. exists p'. unfold on_channel in *. split; [done|].
  split; [congruence|done].
Qed.

Lemma clean_overlaps_trim_shape_witness :
  exists p, p ∈ [prog "c" 0 50 "A"; prog "c" 30 80 "B"] /\
    (prog "c" 0 30 "A" = p \/
     exists p', p' ∈ [prog "c" 0 50 "A"; prog "c" 30 80 "B"] /\
                channel p' = channel p /\
                start p < start p' < stop p /\
                prog "c" 0 30 "A" = set_stop p (start p')).
Proof.
  apply (clean_overlaps_trim_shape
           [prog "c" 0 50 "A"; prog "c" 30 80 "B"] (prog "c" 0 30 "A")).
  vm_compute. left.
Defined.

(** A sweep over programmes of positive duration emits programmes of
    positive duration. *)
Lemma clean_channel_positive s l :
  Forall (fun p => start p < stop p) l ->
  Forall (fun p => start p < stop p) (clean_channel s l).
Proof.
  intros Hl. rewrite clean_channel_unfold.
  pose proof (fold_left_prefix_ind (clean_step s)
    (fun done st =>
       Forall (fun q => start q < stop q) st.1 /\
       (forall c, st.2 = Some c -> start c < stop c))
    (sort_by le_start l) ([], None)) as Hind.
  destruct Hind as [Hm Hc].
  - split; [constructor|done].
  - intros done x rest [merged cur] Heq [Hm Hc]. simpl in *.
    assert (Hx : start x < stop x).
    { apply (proj1 (Forall_forall _ _) Hl). apply elem_of_sort_by_start.
      rewrite Heq. set_solver. }
    destruct cur as [c|]; simpl; [|split; [done|by intros ? [= <-]]].
    specialize (Hc c eq_refl).
    repeat case_match; simpl;
      (split; [rewrite ?Forall_app, ?Forall_singleton|intros ? [= <-]]);
      simpl; try done; try (split; [done|]); simpl; lia.
  - rewrite Forall_app. split; [done|].
    destruct (fold_left _ _ _).2 as [c|]; simpl; [|constructor].
    apply Forall_singleton. by apply Hc.
Qed.

(** X4. If every input programme has [start < stop], so has every output
    programme, under every strategy: trimming never yields an empty or
    negative duration. *)
Theorem clean_overlaps_positive_duration ps strategy :
  Forall (fun p => start p < stop p) ps ->
  Forall (fun q => start q < stop q) (clean_overlaps ps strategy).
Proof.
  intros Hps. apply Forall_forall. intros q Hq%elem_of_clean_overlaps.
  assert (Hpos : Forall (fun p => start p < stop p)
            (clean_channel strategy (filter (on_channel (channel q)) ps))).
  { apply clean_channel_positive, Forall_forall.
    intros p [_ Hp]%list_elem_of_filter.
    by apply (proj1 (Forall_forall _ _) Hps). }
  rewrite Forall_forall in Hpos. by apply Hpos.
Qed.

Lemma clean_overlaps_positive_duration_witness :
  Forall (fun q => start q < stop q)
         (clean_overlaps [prog "c" 0 50 "A"; prog "c" 30 80 "B"] "trim").
Proof.
  apply (clean_overlaps_positive_duration
           [prog "c" 0 50 "A"; prog "c" 30 80 "B"] "trim").
  repeat constructor.
Defined.

(** Under a merging strategy the sweep covers every programme it has
    consumed with the range of an emitted or of the current programme. *)
Lemma clean_channel_merge_covers s l p :
  s <> "trim" -> p ∈ l ->
  exists q, q ∈ clean_channel s l /\ covers q p.
Proof.
  intros Hs%String.eqb_neq Hp. rewrite clean_channel_unfold.
  pose proof (sort_by_StronglySorted le_start le_start_total le_start_trans l)
    as Hsorted.
  pose proof (fold_left_prefix_ind (clean_step s)
    (fun done st =>
       (forall x, x ∈ done ->
          exists q, q ∈ st.1 ++ option_list st.2 /\ covers q x) /\
       (forall c, st.2 = Some c -> exists p0, p0 ∈ done /\ start c = start p0))
    (sort_by le_start l) ([], None)) as Hind.
  destruct Hind as [Hcov _].
  - split; [by intros x ?%not_elem_of_nil|done].
  - intros done x rest [merged cur] Heq [Hcov Hc]. simpl in *.
    assert (Hle : forall y, y ∈ done -> start y <= start x).
    { intros y Hy. rewrite Heq in Hsorted.
      apply (StronglySorted_app_1_elem_of _ _ _ y x) in Hsorted;
        [|done|left].
      unfold le_rel, le_start in Hsorted. lia. }
    assert (Hxx : covers x x) by (unfold covers; lia).
    destruct cur as [c|]; simpl in *.
    2:{ split; [|intros ? [= <-]; exists x; split; [set_solver|done]].
        intros y [Hy| ->%list_elem_of_singleton]%elem_of_app.
        - destruct (Hcov y Hy) as (q & Hq & Hqy). exists q. set_solver.
        - exists x. set_solver. }
    destruct (Hc c eq_refl) as (p0 & Hp0 & Hstart).
    pose proof (Hle p0 Hp0) as Hp0x.
    rewrite Hs. destruct (start x <? stop c) eqn:Hov; simpl.
    + split.
      * intros y [Hy| ->%list_elem_of_singleton]%elem_of_app.
        -- destruct (Hcov y Hy) as (q & [Hq| ->%list_elem_of_singleton]%elem_of_app & Hqy).
           ++ exists q. set_solver.
           ++ exists (absorb c x). split; [set_solver|].
              unfold covers in *. simpl. lia.
        -- exists (absorb c x). split; [set_solver|].
           unfold covers. simpl. lia.
      * intros ? [= <-]. exists p0. split; [set_solver|done].
    + split.
      * intros y [Hy| ->%list_elem_of_singleton]%elem_of_app.
        -- destruct (Hcov y Hy) as (q & Hq & Hqy). exists q. set_solver.
        -- exists x. set_solver.
      * intros ? [= <-]. exists x. split; [set_solver|done].
  - apply Hcov. by apply elem_of_sort_by_start.
Qed.

(** X5. Under 'merge' (under every strategy other than 'trim') no air
    time is lost: every input programme lies within the range of an output
    programme of its channel. *)
Theorem clean_overlaps_merge_covers ps strategy p :
  strategy <> "trim" -> p ∈ ps ->
  exists q, q ∈ clean_overlaps ps strategy /\
    channel q = channel p /\ start q <= start p /\ stop p <= stop q.
Proof.
  intros Hs Hp.
  assert (Hpf : p ∈ filter (on_channel (channel p)) ps).
  { apply list_elem_of_filter. by split. }
  destruct (clean_channel_merge_covers strategy _ p Hs Hpf) as (q & Hq & Hcov).
  assert (Hch : channel q = channel p).
  { assert (Hall : Forall (on_channel (channel p))
              (clean_channel strategy (filter (on_channel (channel p)) ps))).
    { apply clean_channel_on_channel, Forall_forall.
      by intros x [? _]%list_elem_of_filter. }
    rewrite Forall_forall in Hall. by apply Hall. }
  exists q. split; [|by split].
  apply elem_of_clean_overlaps. by rewrite Hch.
Qed.

Lemma clean_overlaps_merge_covers_witness :
  exists q,
    q ∈ clean_overlaps [prog "c" 0 50 "A"; prog "c" 30 80 "B"] "merge" /\
    channel q = "c" /\ start q <= 30 /\ 80 <= stop q.
Proof.
  apply (clean_overlaps_merge_covers
           [prog "c" 0 50 "A"; prog "c" 30 80 "B"] "merge"
           (prog "c" 30 80 "B")); [discriminate|].
  right. left.
Defined.

(** X6. A strategy string other than 'trim' is handled as 'merge'. *)
Theorem clean_overlaps_other_strategy ps strategy :
  strategy <> "trim" ->
  clean_overlaps ps strategy = clean_overlaps ps "merge".
Proof.
  intros Hs%String.eqb_neq.
  assert (Hstep : forall st p, clean_step strategy st p = clean_step "merge" st p).
  { intros [merged [c|]] p; simpl; [|done]. by rewrite Hs. }
  assert (Hfold : forall l st,
            fold_left (clean_step strategy) l st =
            fold_left (clean_step "merge") l st).
  { induction l as [|x l IH]; intros st; simpl; [done|]. by rewrite Hstep, IH. }
  assert (Hchan : forall l, clean_channel strategy l = clean_channel "merge" l).
  { intros l. unfold clean_channel. by rewrite Hfold. }
  unfold clean_overlaps. f_equal.
  generalize (@nil programme).
  induction (group_by_channel ps) as [|[k l] bc IH]; intros acc; simpl; [done|].
  by rewrite Hchan, IH.
Qed.

Lemma clean_overlaps_other_strategy_witness :
  clean_overlaps [prog "c" 0 50 "A"; prog "c" 30 80 "B"] "keep" =
  clean_overlaps [prog "c" 0 50 "A"; prog "c" 30 80 "B"] "merge".
Proof.
  apply (clean_overlaps_other_strategy
           [prog "c" 0 50 "A"; prog "c" 30 80 "B"] "keep").
  discriminate.
Defined.

(** A sweep emits at most as many programmes as it consumes. *)
Lemma clean_channel_length s l :
  (length (clean_channel s l) <= length l)%nat.
Proof.
  rewrite clean_channel_unfold.
  rewrite <- (Permutation_length (sort_by_Permutation le_start l)).
  apply (fold_left_prefix_ind (clean_step s)
    (fun done st =>
       (length (st.1 ++ option_list st.2) <= length done)%nat)
    (sort_by le_start l) ([], None)); [done|].
  intros done x rest [merged [c|]] _; simpl;
    repeat case_match; simpl; rewrite ?length_app; simpl; lia.
Qed.

Lemma setdefault_append_concat {A} (bc : list (string * list A)) k p :
  concat (snd <$> setdefault_append bc k p) ≡ₚ concat (snd <$> bc) ++ [p].
Proof.
  induction bc as [|[k' l] bc IH]; [done|].
  cbn [setdefault_append].
  destruct (String.eqb k' k); rewrite !fmap_cons; cbn [snd concat].
  - rewrite <- !app_assoc. f_equiv. apply Permutation_app_comm.
  - by rewrite IH, app_assoc.
Qed.

(** Grouping loses and duplicates nothing. *)
Lemma group_by_key_concat {A} (key : A -> string) (l : list A) :
  concat (snd <$> group_by_key key l) ≡ₚ l.
Proof.
  unfold group_by_key. induction l as [|x l IH] using rev_ind; [done|].
  rewrite fold_left_app. simpl. by rewrite setdefault_append_concat, IH.
Qed.

(** X7. The cleaner returns at most as many programmes as it is given:
    it only drops or merges, it never adds. *)
Theorem clean_overlaps_length ps strategy :
  (length (clean_overlaps ps strategy) <= length ps)%nat.
Proof.
  unfold clean_overlaps.
  rewrite (Permutation_length (sort_by_Permutation le_channel_start _)).
  rewrite fold_left_cleaned. simpl.
  rewrite <- (Permutation_length (group_by_key_concat channel ps)).
  fold (group_by_channel ps).
  induction (group_by_channel ps) as [|[k l] bc IH]; [done|].
  rewrite !fmap_cons. cbn [concat snd]. rewrite !length_app.
  pose proof (clean_channel_length strategy l). lia.
Qed.

(** A list that is already a timeline on every channel is only sorted. *)
Lemma clean_overlaps_timelines ps s :
  (forall c, Sorted precedes (sort_by le_start (filter (on_channel c) ps))) ->
  clean_overlaps ps s = sort_by le_channel_start ps.
Proof.
  intros Htl.
  apply (sorted_unique_by_class (le_rel le_channel_start) channel).
  - unfold le_rel, le_channel_start. intros x y.
    rewrite (String.compare_antisym (channel x) (channel y)).
    destruct (String.compare (channel y) (channel x)) eqn:Hc; simpl; try done.
    intros _ _. symmetry. by apply String.compare_eq_iff.
  - apply clean_overlaps_StronglySorted.
  - apply sort_by_StronglySorted;
      [apply le_channel_start_total|apply le_channel_start_trans].
  - intros c.
    change (filter (on_channel c) (clean_overlaps ps s) =
            filter (on_channel c) (sort_by le_channel_start ps)).
    rewrite clean_overlaps_channel.
    rewrite (clean_channel_disjoint s (filter (on_channel c) ps)) by done.
    rewrite (filter_sort_by _ le_channel_start_total le_channel_start_trans).
    symmetry. apply (sort_by_one_channel c).
    apply Forall_forall. by intros p [? _]%list_elem_of_filter.
Qed.

Lemma sort_by_clean_overlaps ps s :
  sort_by le_channel_start (clean_overlaps ps s) = clean_overlaps ps s.
Proof.
  apply sort_by_Sorted_id, StronglySorted_Sorted, clean_overlaps_StronglySorted.
Qed.

(** X8. Cleaning is idempotent: cleaning a cleaned list again, with the
    same or with another strategy, changes nothing. *)
Theorem clean_overlaps_idempotent ps strategy strategy' :
  clean_overlaps (clean_overlaps ps strategy) strategy' =
  clean_overlaps ps strategy.
Proof.
  rewrite clean_overlaps_timelines; [apply sort_by_clean_overlaps|].
  intros c. rewrite clean_overlaps_channel.
  rewrite sort_by_Sorted_id; [apply clean_channel_timeline|].
  eapply Sorted_weaken; [|apply clean_channel_timeline].
  unfold precedes, le_rel, le_start. intros; lia.
Qed.

(** ** The guide builder: order, first record wins, safe ids *)

(** X9. The programme list holds, in the order of the stream records, one
    programme for every record that has both [starts_at] and [ends_at],
    and nothing else: records without an instant are skipped, repeated
    records are kept. *)
Theorem build_programs_programmes (data : Json.data) (tz : ZoneInfo) :
  (build_programs data tz).2 = omap programme_of (all_streams data) /\
  length (build_programs data tz).2 =
    length (filter (fun s => is_Some (Json.starts_at s) /\
                             is_Some (Json.ends_at s))
                   (all_streams data)).
Proof.
  rewrite build_programs_fold.
  destruct (fold_build_step (all_streams data)) as (_ & _ & ->).
  split; [done|].
  induction (all_streams data) as [|s ss IH]; [done|].
  rewrite filter_cons. cbn [omap list_omap]. unfold programme_of at 1.
  destruct (decide _) as [[[t0 H0] [t1 H1]]|Hn].
  - rewrite H0, H1. simpl. by rewrite IH.
  - destruct (Json.starts_at s) as [t0|] eqn:H0,
      (Json.ends_at s) as [t1|] eqn:H1; try done.
    exfalso. apply Hn. split; eauto.
Qed.

Lemma head_app_nonempty {A} (l1 l2 : list A) :
  l1 <> [] -> head (l1 ++ l2) = head l1.
Proof. by destruct l1. Qed.

(** The registry after a run of records: one entry per derived id, made
    from the first record with that id. *)
Lemma fold_build_step_registry ss :
  let channels := (fold_left build_step ss ([], [])).1 in
  forall c m,
    (c, m) ∈ channels <->
    exists s, head (filter (fun s => chan_id_of s = c) ss) = Some s /\
              m = meta_of s.
Proof.
  induction ss as [|s ss IH] using rev_ind; simpl.
  - intros c m. split; [by intros ?%not_elem_of_nil|by intros (? & ? & _)].
  - rewrite fold_left_app. simpl.
    destruct (fold_build_step ss) as (Hkeys & _ & _).
    destruct (fold_left build_step ss ([], [])) as [channels programmes].
    simpl in IH, Hkeys.
    assert (Hkeys' : forall c, c ∈ channels.*1 <->
              filter (fun s => chan_id_of s = c) ss <> []).
    { intros c. rewrite Hkeys, list_elem_of_fmap. split.
      - intros (s' & -> & Hs') Hnil.
        by eapply (filter_nil_not_elem_of _ _ s' Hnil).
      - intros Hne. destruct (filter _ ss) as [|s' l] eqn:Hf; [done|].
        assert (Hin : s' ∈ filter (fun s => chan_id_of s = c) ss)
          by (rewrite Hf; left).
        apply list_elem_of_filter in Hin as [<- Hin]. eauto. }
    assert (Hfst : forall P,
      P (if decide (chan_id_of s ∈ channels.*1) then channels
         else channels ++ [(chan_id_of s, meta_of s)]) ->
      P (build_step (channels, programmes) s).1).
    { intros P HP. unfold build_step. by destruct (programme_of s). }
    apply Hfst. clear Hfst. intros c m.
    rewrite filter_app, filter_cons, filter_nil.
    case_decide as Hin.
    + rewrite IH. apply Hkeys' in Hin. split.
      * intros (s' & Hhead & ->). exists s'. split; [|done].
        rewrite head_app_nonempty; [done|]. intros Hnil.
        by rewrite Hnil in Hhead.
      * intros (s' & Hhead & ->). exists s'. split; [|done].
        destruct (decide (filter (fun s => chan_id_of s = c) ss = []))
          as [Hnil|Hne]; [|by rewrite head_app_nonempty in Hhead].
        rewrite Hnil in Hhead. simpl in Hhead.
        case_decide as Hc; [|done]. subst c. done.
    + rewrite elem_of_app, IH, list_elem_of_singleton.
      assert (Hnil : filter (fun s0 => chan_id_of s0 = chan_id_of s) ss = []).
      { destruct (decide (filter (fun s0 => chan_id_of s0 = chan_id_of s) ss = []))
          as [?|Hne]; [done|]. by apply Hkeys' in Hne. }
      split.
      * intros [(s' & Hhead & ->)|[= -> ->]].
        -- exists s'. split; [|done].
           rewrite head_app_nonempty; [done|]. intros Hn. by rewrite Hn in Hhead.
        -- exists s. split; [|done]. rewrite Hnil. simpl.
           by rewrite decide_True.
      * intros (s' & Hhead & ->).
        destruct (decide (filter (fun s => chan_id_of s = c) ss = []))
          as [Hn|Hne].
        -- right. rewrite Hn in Hhead. simpl in Hhead.
           case_decide as Hc; [|done]. simpl in Hhead. by simplify_eq.
        -- left. exists s'. by rewrite head_app_nonempty in Hhead.
Qed.

(** X10. The registry has one entry per channel id, and the entry is made
    from the first stream record with that id: its display name is that
    record's tag, else its category name, else the id itself, and its icon
    is that record's poster. Later records of the same channel change
    nothing. *)
Theorem build_programs_first_record_wins (data : Json.data) (tz : ZoneInfo) :
  NoDup (build_programs data tz).1.*1 /\
  forall c m,
    (c, m) ∈ (build_programs data tz).1 <->
    exists s,
      head (filter (fun s => chan_id_of s = c) (all_streams data)) = Some s /\
      m = ChannelMeta
            (Some (or_else (Json.tag s)
                           (or_else (Json.category_name s) c)))
            (Json.poster s).
Proof.
  rewrite build_programs_fold. split.
  - by destruct (fold_build_step (all_streams data)) as (_ & ? & _).
  - intros c m. rewrite (fold_build_step_registry (all_streams data) c m).
    split; intros (s & Hhead & ->); exists s; (split; [done|]);
      assert (chan_id_of s = c) as <-; try done;
      (assert (Hin : s ∈ filter (fun s => chan_id_of s = c) (all_streams data));
       [destruct (filter _ _); simplify_eq/=; left
       |by apply list_elem_of_filter in Hin as [? _]]).
Qed.

Lemma replace_char_not_in a b s :
  a <> b -> ~ In a (list_ascii_of_string (replace_char a b s)).
Proof.
  intros Hab. induction s as [|c s IH]; simpl; [tauto|].
  intros [Hc|Hin]; [|done].
  destruct (Ascii.eqb_spec c a); congruence.
Qed.

Lemma replace_char_nonempty a b s : s <> "" -> replace_char a b s <> "".
Proof. by destruct s. Qed.

Lemma or_else_nonempty x y : y <> "" -> or_else x y <> "".
Proof.
  unfold or_else, truthy. intros Hy. destruct x as [s|]; simpl; [|done].
  destruct (String.eqb_spec s ""); simpl; done.
Qed.

(** X11. A derived channel id is never empty and never contains a slash,
    whatever the record holds. *)
Theorem chan_id_of_safe (s : Json.stream) :
  chan_id_of s <> "" /\
  ~ In "/"%char (list_ascii_of_string (chan_id_of s)).
Proof.
  unfold chan_id_of. split.
  - apply replace_char_nonempty, or_else_nonempty. done.
  - apply replace_char_not_in. done.
Qed.

(** X12. Every programme the builder returns has a non-empty title (the
    record's name, or 'stream_<id>' when the name is missing or empty), no
    resolved stream URL yet, and a channel id that is non-empty and free
    of slashes. *)
Theorem build_programs_programme_fields (data : Json.data) (tz : ZoneInfo) p :
  p ∈ (build_programs data tz).2 ->
  title p <> "" /\ m3u8 p = None /\ channel p <> "" /\
  ~ In "/"%char (list_ascii_of_string (channel p)).
Proof.
  rewrite build_programs_fold.
  destruct (fold_build_step (all_streams data)) as (_ & _ & ->).
  intros (s & _ & Hp)%list_elem_of_omap.
  unfold programme_of in Hp.
  destruct (Json.starts_at s), (Json.ends_at s); simplify_eq. simpl.
  split; [by apply or_else_nonempty|]. split; [done|].
  unfold chan_id_of. split; [by apply replace_char_nonempty, or_else_nonempty|by apply replace_char_not_in].
Qed.

Lemma build_programs_programme_fields_witness :
  let s := Json.Stream (Some "a/b") (Some (SInt 7)) None None None None
                       (Some 10) (Some 20) None None in
  let p := Programme "a_b" 10 20 "stream_7" None None None None None
                     (Some (SInt 7)) None in
  title p <> "" /\ m3u8 p = None /\ channel p <> "" /\
  ~ In "/"%char (list_ascii_of_string (channel p)).
Proof.
  apply (build_programs_programme_fields
           (Json.Data (Some [Json.Category
              (Some [Json.Stream (Some "a/b") (Some (SInt 7)) None None None
                                 None (Some 10) (Some 20) None None])]))
           (fun _ => 28800)).
  vm_compute. left.
Defined.

(** X13. Builder and cleaner compose: every programme that is left after
    cleaning the built programme list, under any strategy, references a
    channel of the built registry. *)
Theorem cleaned_programmes_in_registry (data : Json.data) (tz : ZoneInfo)
    strategy q :
  q ∈ clean_overlaps (build_programs data tz).2 strategy ->
  channel q ∈ (build_programs data tz).1.*1.
Proof.
  intros (p & Hp & Hpq)%clean_overlaps_from_input.
  revert Hp. rewrite build_programs_fold.
  destruct (fold_build_step (all_streams data)) as (Hkeys & _ & ->).
  intros (s & Hs & Hps)%list_elem_of_omap.
  rewrite Hkeys. unfold same_but_stop_title in Hpq. rewrite Hpq. simpl.
  rewrite (programme_of_channel s p Hps). by apply list_elem_of_fmap_2.
Qed.

Lemma cleaned_programmes_in_registry_witness :
  let data :=
    Json.Data (Some [Json.Category
      (Some [Json.Stream (Some "a/b") (Some (SInt 7)) None None None
                         None (Some 10) (Some 20) None None])]) in
  "a_b" ∈ (build_programs data (fun _ => 28800)).1.*1.
Proof.
  apply (cleaned_programmes_in_registry
           (Json.Data (Some [Json.Category
              (Some [Json.Stream (Some "a/b") (Some (SInt 7)) None None None
                                 None (Some 10) (Some 20) None None])]))
           (fun _ => 28800) "trim"
           (Programme "a_b" 10 20 "stream_7" None None None None None
                      (Some (SInt 7)) None)).
  vm_compute. left.
Defined.

(** ** The time formatter: when it fails, and that it loses nothing *)

(** [datetime] exists exactly for the years 1..9999. *)
Lemma datetime_of_seconds_None secs off :
  datetime_of_seconds secs off = None <->
  secs < -62135596800 \/ 253402300800 <= secs.
Proof.
  unfold datetime_of_seconds. cbv zeta.
  destruct ((1 <=? EPOCH_ORD + secs / 86400)
            && (EPOCH_ORD + secs / 86400 <=? MAXORD)) eqn:Hrange.
  - destruct (ord2ymd _) as [[y m] d]. split; [done|].
    unfold EPOCH_ORD, MAXORD in Hrange. intros Hout. exfalso.
    apply andb_true_iff in Hrange as [H1 H2].
    revert H1 H2 Hout. Z.div_mod_to_equations. lia.
  - split; [|done]. intros _.
    unfold EPOCH_ORD, MAXORD in Hrange.
    apply andb_false_iff in Hrange.
    revert Hrange. Z.div_mod_to_equations. lia.
Qed.

(** X14. The time formatter raises exactly when the instant, or its local
    wall-clock time in the zone, falls outside the years 0001..9999; for
    every other instant and zone it returns a string. *)
Theorem xmltv_time_raises (ts : Z) (tz : ZoneInfo) :
  xmltv_time ts tz = None <->
  ts < -62135596800 \/ 253402300800 <= ts \/
  ts + tz ts < -62135596800 \/ 253402300800 <= ts + tz ts.
Proof.
  unfold xmltv_time, dt_from_ts.
  pose proof (datetime_of_seconds_None ts 0) as H0.
  pose proof (datetime_of_seconds_None (ts + tz ts) (tz ts)) as H1.
  destruct (datetime_of_seconds ts 0) as [dt0|].
  - destruct (datetime_of_seconds (ts + tz ts) (tz ts)) as [dt|].
    + split; [done|]. intros Hout. exfalso.
      assert (Hn0 : ~ (ts < -62135596800 \/ 253402300800 <= ts))
        by (intros H; by apply H0 in H).
      assert (Hn1 : ~ (ts + tz ts < -62135596800 \/
                       253402300800 <= ts + tz ts))
        by (intros H; by apply H1 in H).
      lia.
    + split; [|done]. intros _.
      assert (ts + tz ts < -62135596800 \/ 253402300800 <= ts + tz ts)
        by (by apply H1).
      lia.
  - split; [|done]. intros _.
    assert (ts < -62135596800 \/ 253402300800 <= ts) by (by apply H0).
    lia.
Qed.

(** The formatter returns a rendering of the local time and offset. *)
Lemma xmltv_time_renders (ts : Z) (tz : ZoneInfo) :
  -62135596800 <= ts < 253402300800 ->
  -30610224000 <= ts + tz ts < 253402300800 ->
  -86400 < tz ts < 86400 ->
  0 <= tz ts \/ tz ts mod 60 = 0 ->
  exists s,
    xmltv_time ts tz = Some s /\
    xmltv_rendering (ts + tz ts) (tz ts) s /\
    String.length s = 20%nat.
Proof.
  intros Hts Hlocal Hoff Hmin.
  destruct (datetime_of_seconds_in_range ts 0 Hts) as [dt0 Hdt0].
  destruct (datetime_of_seconds_spec (ts + tz ts) (tz ts) Hlocal)
    as (dt & Hdt & Hoffdt & Hy & Hmo & Hd & Hhh & Hmi & Hss & Hinst).
  assert (Hday : day dt <= 31).
  { destruct Hd as [_ Hd]. revert Hd. unfold days_in_month.
    assert (Hcases : month dt = 1 \/ month dt = 2 \/ month dt = 3 \/
              month dt = 4 \/ month dt = 5 \/ month dt = 6 \/
              month dt = 7 \/ month dt = 8 \/ month dt = 9 \/
              month dt = 10 \/ month dt = 11 \/ month dt = 12) by lia.
    destruct Hcases as [->|[->|[->|[->|[->|[->|[->|[->|[->|[->|[->| ->]]]]]]]]]]];
      simpl; try destruct (is_leap (year dt)); simpl; lia. }
  assert (Hoh : 0 <= Z.abs (tz ts / 60) / 60 < 24)
    by (Z.div_mod_to_equations; lia).
  assert (Hom : 0 <= Z.abs (tz ts / 60) mod 60 < 60)
    by (Z.div_mod_to_equations; lia).
  assert (Hrender : xmltv_rendering (ts + tz ts) (tz ts)
    (strftime_YmdHMS dt +:+ " "
     +:+ (if 0 <=? tz ts / 60 then "+" else "-")
     +:+ zfill 2 (str_int (Z.abs (tz ts / 60) / 60))
     +:+ zfill 2 (str_int (Z.abs (tz ts / 60) mod 60)))).
  { unfold strftime_YmdHMS.
    apply (xmltv_rendering_intro (ts + tz ts) (tz ts)
             (year dt) (month dt) (day dt) (hour dt) (minute dt) (second dt)
             (Z.abs (tz ts / 60) / 60) (Z.abs (tz ts / 60) mod 60)).
    - apply zfill_4_digits. lia.
    - apply zfill_2_digits. lia.
    - apply zfill_2_digits. lia.
    - apply zfill_2_digits. lia.
    - apply zfill_2_digits. lia.
    - apply zfill_2_digits. lia.
    - done.
    - done.
    - done.
    - done.
    - done.
    - done.
    - destruct (0 <=? tz ts / 60) eqn:Hsign; [left|right]; (split; [done|]);
        Z.div_mod_to_equations; lia.
    - apply zfill_2_digits. lia.
    - apply zfill_2_digits. lia.
    - done.
    - done.
    - Z.div_mod_to_equations. lia. }
  eexists. split; [|split; [exact Hrender|]].
  - unfold xmltv_time, dt_from_ts. rewrite Hdt0, Hdt. cbv zeta.
    by rewrite Hoffdt.
  - by eapply xmltv_rendering_length.
Qed.


Lemma string_app_inj_length (a1 a2 r1 r2 : string) :
  String.length a1 = String.length a2 ->
  a1 +:+ r1 = a2 +:+ r2 -> a1 = a2 /\ r1 = r2.
Proof.
  revert a2. induction a1 as [|x a1 IH]; intros [|y a2] Hlen Heq;
    try done.
  change (String x (a1 +:+ r1) = String y (a2 +:+ r2)) in Heq.
  injection Heq as -> Heq. simpl in Hlen.
  destruct (IH a2) as [-> ->]; [lia|done|done].
Qed.

(** A rendering determines the local second, the sign of the offset and
    its whole minutes. *)
Lemma xmltv_rendering_unique local1 off1 local2 off2 s :
  xmltv_rendering local1 off1 s -> xmltv_rendering local2 off2 s ->
  local1 = local2 /\
  (off1 mod 60 = 0 -> off2 mod 60 = 0 -> off1 = off2).
Proof.
  intros (y & mo & d & hh & mi & ss & oh & om & sY & sMo & sD & sH & sMi & sS
          & sign & sOH & sOM & Hs & HY & HMo & HD & HH & HMi & HS & _ & _ & _
          & _ & _ & Hloc & Hsign & HOH & HOM & _ & _ & Hoff).
  intros (y' & mo' & d' & hh' & mi' & ss' & oh' & om' & sY' & sMo' & sD' & sH'
          & sMi' & sS' & sign' & sOH' & sOM' & Hs' & HY' & HMo' & HD' & HH'
          & HMi' & HS' & _ & _ & _ & _ & _ & Hloc' & Hsign' & HOH' & HOM'
          & _ & _ & Hoff').
  rewrite Hs in Hs'. clear Hs.
  pose proof (fixed_decimal_length _ _ _ HY). pose proof (fixed_decimal_length _ _ _ HY').
  pose proof (fixed_decimal_length _ _ _ HMo). pose proof (fixed_decimal_length _ _ _ HMo').
  pose proof (fixed_decimal_length _ _ _ HD). pose proof (fixed_decimal_length _ _ _ HD').
  pose proof (fixed_decimal_length _ _ _ HH). pose proof (fixed_decimal_length _ _ _ HH').
  pose proof (fixed_decimal_length _ _ _ HMi). pose proof (fixed_decimal_length _ _ _ HMi').
  pose proof (fixed_decimal_length _ _ _ HS). pose proof (fixed_decimal_length _ _ _ HS').
  pose proof (fixed_decimal_length _ _ _ HOH). pose proof (fixed_decimal_length _ _ _ HOH').
  assert (Hsl : String.length sign = String.length sign').
  { by destruct Hsign as [[-> _]|[-> _]], Hsign' as [[-> _]|[-> _]]. }
  apply string_app_inj_length in Hs' as [<- Hs']; [|congruence].
  apply string_app_inj_length in Hs' as [<- Hs']; [|congruence].
  apply string_app_inj_length in Hs' as [<- Hs']; [|congruence].
  apply string_app_inj_length in Hs' as [<- Hs']; [|congruence].
  apply string_app_inj_length in Hs' as [<- Hs']; [|congruence].
  apply string_app_inj_length in Hs' as [<- Hs']; [|congruence].
  apply string_app_inj_length in Hs' as [_ Hs']; [|done].
  apply string_app_inj_length in Hs' as [<- Hs']; [|done].
  apply string_app_inj_length in Hs' as [<- <-]; [|congruence].
  apply fixed_decimal_value in HY, HY', HMo, HMo', HD, HD', HH, HH', HMi,
    HMi', HS, HS', HOH, HOH', HOM, HOM'.
  assert (y = y') by congruence. assert (mo = mo') by congruence.
  assert (d = d') by congruence. assert (hh = hh') by congruence.
  assert (mi = mi') by congruence. assert (ss = ss') by congruence.
  assert (oh = oh') by congruence. assert (om = om') by congruence.
  subst. split; [done|]. intros Hm1 Hm2.
  destruct Hsign as [[Hsg ?]|[Hsg ?]], Hsign' as [[Hsg' ?]|[Hsg' ?]];
    try (rewrite Hsg in Hsg'; discriminate);
    revert Hm1 Hm2 Hoff Hoff'; Z.div_mod_to_equations; lia.
Qed.

(** X15. The rendering loses nothing: two different instants of the years
    1000..9999, each with a whole-minute offset in its zone, are never
    rendered to the same string. In particular a wall-clock time that
    occurs twice at a change of offset is told apart by the rendered
    offset. *)
Theorem xmltv_time_injective (ts1 ts2 : Z) (tz1 tz2 : ZoneInfo) :
  -62135596800 <= ts1 < 253402300800 ->
  -30610224000 <= ts1 + tz1 ts1 < 253402300800 ->
  -86400 < tz1 ts1 < 86400 -> tz1 ts1 mod 60 = 0 ->
  -62135596800 <= ts2 < 253402300800 ->
  -30610224000 <= ts2 + tz2 ts2 < 253402300800 ->
  -86400 < tz2 ts2 < 86400 -> tz2 ts2 mod 60 = 0 ->
  ts1 <> ts2 ->
  xmltv_time ts1 tz1 <> xmltv_time ts2 tz2.
Proof.
  intros Hr1 Hl1 Ho1 Hm1 Hr2 Hl2 Ho2 Hm2 Hne Heq. apply Hne.
  destruct (xmltv_time_renders ts1 tz1) as (s1 & Hs1 & Hrend1 & _);
    [done..|by right|].
  destruct (xmltv_time_renders ts2 tz2) as (s2 & Hs2 & Hrend2 & _);
    [done..|by right|].
  rewrite Hs1, Hs2 in Heq. injection Heq as ->.
  destruct (xmltv_rendering_unique _ _ _ _ _ Hrend1 Hrend2) as [Hloc Hoff].
  specialize (Hoff Hm1 Hm2). lia.
Qed.

Lemma xmltv_time_injective_witness :
  xmltv_time 0 (fun _ => 3600) <> xmltv_time 3600 (fun _ => 0).
Proof.
  apply (xmltv_time_injective 0 3600 (fun _ => 3600) (fun _ => 0));
    (lia || reflexivity).
Defined.

(** ** The emitter: failure, shape and order *)

Lemma programme_element_None tz p :
  programme_element tz p = None <->
  xmltv_time (start p) tz = None \/ xmltv_time (stop p) tz = None.
Proof.
  unfold programme_element.
  destruct (xmltv_time (start p) tz), (xmltv_time (stop p) tz); naive_solver.
Qed.

(** X16. The emitter fails as a whole exactly when the start or the stop
    of some programme cannot be formatted; the channels play no part in
    it. *)
Theorem generate_xmltv_raises channels programmes (tz : ZoneInfo) :
  generate_xmltv channels programmes tz = None <->
  exists p, p ∈ programmes /\
    (xmltv_time (start p) tz = None \/ xmltv_time (stop p) tz = None).
Proof.
  unfold generate_xmltv.
  destruct (mapM _ _) as [progs|] eqn:Hmap.
  - split; [done|]. intros (p & Hp & Hnone). exfalso.
    apply programme_element_None in Hnone.
    assert (Hex : mapM (programme_element tz)
                    (sort_by le_channel_start programmes) = None).
    { apply mapM_None, Exists_exists. exists p. split; [|done].
      by rewrite sort_by_Permutation. }
    congruence.
  - split; [|done]. intros _.
    apply mapM_None, Exists_exists in Hmap as (p & Hp & Hnone).
    exists p. split; [by rewrite sort_by_Permutation in Hp|].
    by apply programme_element_None.
Qed.






(** The stable sort of a list with pairwise distinct keys does not depend
    on the order of the list. *)
Lemma sort_by_Permutation_unique {A} (le : A -> A -> bool) (l l' : list A) :
  (forall x y, le x y = true \/ le y x = true) ->
  (forall x y z, le x y = true -> le y z = true -> le x z = true) ->
  (forall x y, x ∈ l -> y ∈ l -> le x y = true -> le y x = true -> x = y) ->
  l ≡ₚ l' -> sort_by le l = sort_by le l'.
Proof.
  intros Htot Htrans Hanti Hperm.
  apply (StronglySorted_unique_strong (le_rel le)).
  - intros x y Hx Hy. rewrite sort_by_Permutation in Hx, Hy.
    rewrite <- Hperm in Hy. by apply Hanti.
  - by apply sort_by_StronglySorted.
  - by apply sort_by_StronglySorted.
  - by rewrite !sort_by_Permutation.
Qed.

Lemma le_channel_start_antisym x y :
  le_channel_start x y = true -> le_channel_start y x = true ->
  channel x = channel y /\ start x = start y.
Proof.
  unfold le_channel_start.
  rewrite (String.compare_antisym (channel x) (channel y)).
  destruct (String.compare (channel y) (channel x)) eqn:Hc; simpl; try done.
  apply String.compare_eq_iff in Hc. intros. split; [done|lia].
Qed.

(** X18. The emitted document does not depend on the order of the
    programme list, as long as no two different programmes share both
    channel id and start instant. *)
Theorem generate_xmltv_order_independent channels ps ps' (tz : ZoneInfo) :
  ps ≡ₚ ps' ->
  (forall a b, a ∈ ps -> b ∈ ps ->
     channel a = channel b -> start a = start b -> a = b) ->
  generate_xmltv channels ps tz = generate_xmltv channels ps' tz.
Proof.
  intros Hperm Hkeys. unfold generate_xmltv.
  rewrite (sort_by_Permutation_unique le_channel_start ps ps'); [done|..|done].
  - apply le_channel_start_total.
  - apply le_channel_start_trans.
  - intros x y Hx Hy Hxy Hyx.
    destruct (le_channel_start_antisym x y Hxy Hyx). by apply Hkeys.
Qed.

Lemma generate_xmltv_order_independent_witness :
  generate_xmltv [] [prog "c" 60 120 "B"; prog "c" 0 60 "A"] (fun _ => 0) =
  generate_xmltv [] [prog "c" 0 60 "A"; prog "c" 60 120 "B"] (fun _ => 0).
Proof.
  apply (generate_xmltv_order_independent []
           [prog "c" 60 120 "B"; prog "c" 0 60 "A"]
           [prog "c" 0 60 "A"; prog "c" 60 120 "B"] (fun _ => 0)).
  - apply Permutation_swap.
  - intros a b Ha Hb _ Hst.
    repeat (apply elem_of_cons in Ha as [-> | Ha]);
      repeat (apply elem_of_cons in Hb as [-> | Hb]);
      try done; try (by apply not_elem_of_nil in Ha);
      try (by apply not_elem_of_nil in Hb).
Defined.

(** X19. The cleaner's result does not depend on the order of its input
    either, under the same condition. *)
Theorem clean_overlaps_order_independent ps ps' strategy :
  ps ≡ₚ ps' ->
  (forall a b, a ∈ ps -> b ∈ ps ->
     channel a = channel b -> start a = start b -> a = b) ->
  clean_overlaps ps strategy = clean_overlaps ps' strategy.
Proof.
  intros Hperm Hkeys.
  apply (sorted_unique_by_class (le_rel le_channel_start) channel).
  - intros x y Hxy Hyx. by destruct (le_channel_start_antisym x y Hxy Hyx).
  - apply clean_overlaps_StronglySorted.
  - apply clean_overlaps_StronglySorted.
  - intros c.
    change (filter (on_channel c) (clean_overlaps ps strategy) =
            filter (on_channel c) (clean_overlaps ps' strategy)).
    rewrite !clean_overlaps_channel. unfold clean_channel.
    rewrite (sort_by_Permutation_unique le_start
               (filter (on_channel c) ps) (filter (on_channel c) ps'));
      [done|apply le_start_total|apply le_start_trans| |by rewrite Hperm].
    intros x y [Hxc Hx]%list_elem_of_filter [Hyc Hy]%list_elem_of_filter.
    unfold le_start, on_channel in *. intros Hxy Hyx.
    apply Hkeys; [done..|congruence|lia].
Qed.

Lemma clean_overlaps_order_independent_witness :
  clean_overlaps [prog "c" 30 80 "B"; prog "c" 0 50 "A"] "trim" =
  clean_overlaps [prog "c" 0 50 "A"; prog "c" 30 80 "B"] "trim".
Proof.
  apply (clean_overlaps_order_independent
           [prog "c" 30 80 "B"; prog "c" 0 50 "A"]
           [prog "c" 0 50 "A"; prog "c" 30 80 "B"] "trim").
  - apply Permutation_swap.
  - intros a b Ha Hb _ Hst.
    repeat (apply elem_of_cons in Ha as [-> | Ha]);
      repeat (apply elem_of_cons in Hb as [-> | Hb]);
      try done; try (by apply not_elem_of_nil in Ha);
      try (by apply not_elem_of_nil in Hb).
Defined.

(** X20. Emitter and cleaner compose: the emitter's own sort leaves a
    cleaned list as it is, so the programme elements of the clean document
    are those of the cleaned list, in the cleaner's order. *)
Theorem generate_xmltv_cleaned channels ps strategy (tz : ZoneInfo) el :
  generate_xmltv channels (clean_overlaps ps strategy) tz = Some el ->
  Forall2 (fun p e => programme_element tz p = Some e)
          (clean_overlaps ps strategy)
          (drop (length channels) (ET.children el)).
Proof.
  unfold generate_xmltv. rewrite sort_by_clean_overlaps.
  destruct (mapM _ _) as [progs|] eqn:Hmap; [|done]. intros [= <-]. simpl.
  rewrite <- (length_map (fun '(cid, meta) => channel_element cid meta) channels).
  rewrite drop_app_length. by apply mapM_Some_1.
Qed.

Lemma generate_xmltv_cleaned_witness :
  exists el,
    generate_xmltv [] (clean_overlaps [prog "c" 0 60 "T"] "trim")
                   (fun _ => 28800) = Some el /\
    Forall2 (fun p e => programme_element (fun _ => 28800) p = Some e)
            (clean_overlaps [prog "c" 0 60 "T"] "trim")
            (drop 0 (ET.children el)).
Proof.
  eexists. split; [reflexivity|].
  apply (generate_xmltv_cleaned [] [prog "c" 0 60 "T"] "trim"
                                (fun _ => 28800) _ eq_refl).
Defined.

(** ** The heap: the returned dicts are distinct objects *)

(** An iteration leaves [merged] as it is or appends the current dict. *)
Lemma clean_step_h_merged s st p (h : heap) st' h' :
  clean_step_h s st p h = Some (st', h') ->
  st'.1 = st.1 \/ exists c, st.2 = Some c /\ st'.1 = st.1 ++ [c].
Proof.
  destruct st as [merged [c|]]; unfold clean_step_h, bind, dict_get,
    dict_copy, dict_set_stop, dict_set_title, ret; simpl.
  2:{ destruct (h !! p); intros; simplify_eq; by left. }
  destruct (h !! p) as [pv|] eqn:Hp; [|done].
  destruct (h !! c) as [cv|] eqn:Hc; [|done].
  destruct (start pv <? stop cv).
  - destruct (s =? "trim")%string.
    + destruct (start pv <=? start cv).
      * rewrite Hp. intros; simplify_eq; by left.
      * rewrite Hc. destruct (<[c:=set_stop cv (start pv)]> h !! p);
          intros; simplify_eq. right; eauto.
    + rewrite Hc, !lookup_insert_eq. intros; simplify_eq; by left.
  - rewrite Hp. intros; simplify_eq. right; eauto.
Qed.

Lemma foldM_clean_step_h_NoDup s (h0 : heap) plist :
  Forall (fun p => p ∈ dom h0) plist ->
  forall h st st' h',
    sweep_inv h0 h st -> NoDup st.1 ->
    foldM (clean_step_h s) plist st h = Some (st', h') ->
    sweep_inv h0 h' st' /\ NoDup st'.1.
Proof.
  induction 1 as [|p plist Hp _ IH]; intros h st st' h' Hinv Hnd Hrun.
  - simpl in Hrun. unfold ret in Hrun. by simplify_eq.
  - simpl in Hrun. unfold bind in Hrun.
    destruct (clean_step_h_spec s h0 h st p Hinv Hp)
      as (st1 & h1 & Hstep & Hinv1 & _).
    rewrite Hstep in Hrun.
    apply (IH h1 st1 st' h' Hinv1); [|done].
    destruct (clean_step_h_merged _ _ _ _ _ _ Hstep) as [->|(c & Hc & ->)];
      [done|].
    apply NoDup_app. split; [done|]. split; [|apply NoDup_singleton].
    intros m Hm ->%list_elem_of_singleton.
    destruct Hinv as (_ & _ & Hcur). by destruct (Hcur c Hc) as (_ & _ & ?).
Qed.

Lemma clean_channel_h_NoDup s (h : heap) plist merged h' :
  Forall (fun p => p ∈ dom h) plist ->
  clean_channel_h s plist h = Some (merged, h') ->
  NoDup merged.
Proof.
  intros Hp. unfold clean_channel_h. unfold bind at 1. unfold get_heap.
  set (sorted := sort_by _ plist).
  assert (Hsorted : Forall (fun p => p ∈ dom h) sorted).
  { unfold sorted. by rewrite sort_by_Permutation. }
  unfold bind.
  destruct (foldM (clean_step_h s) sorted ([], None) h)
    as [[[m cur] h1]|] eqn:Hfold; [|done].
  unfold ret. intros [= <- <-].
  destruct (foldM_clean_step_h_NoDup s h sorted Hsorted h ([], None)
              (m, cur) h1) as [(_ & _ & Hcur) Hnd]; [|constructor|done|].
  { split; [done|]. split; [constructor|done]. }
  destruct cur as [c|]; [|done]. simpl in *.
  apply NoDup_app. split; [done|]. split; [|apply NoDup_singleton].
  intros x Hx ->%list_elem_of_singleton.
  by destruct (Hcur c eq_refl) as (_ & _ & ?).
Qed.

Lemma foldM_channels_NoDup s (h0 : heap) (bc : list (string * list loc)) :
  Forall (fun kl : string * list loc => Forall (fun p => p ∈ dom h0) kl.2) bc ->
  forall (h : heap) cleaned cleaned' h',
    h0 ⊆ h ->
    Forall (fun m => m ∈ dom h /\ (m ∉ dom h0)) cleaned ->
    NoDup cleaned ->
    foldM (fun cleaned (entry : string * list loc) =>
             let* merged := clean_channel_h s entry.2 in
             ret (cleaned ++ merged)) bc cleaned h = Some (cleaned', h') ->
    NoDup cleaned'.
Proof.
  induction 1 as [|[k plist] bc Hk _ IH];
    intros h cleaned cleaned' h' Hsub Hcl Hnd Hrun.
  - simpl in Hrun. unfold ret in Hrun. by simplify_eq.
  - simpl in Hk, Hrun.
    pose proof (subseteq_dom _ _ Hsub) as Hdom.
    assert (Hk' : Forall (fun p => p ∈ dom h) plist).
    { eapply Forall_impl; [exact Hk|]. set_solver. }
    destruct (clean_channel_h_spec s h plist Hk')
      as (merged & h1 & Hchan & Hsub1 & Hm & _).
    pose proof (subseteq_dom _ _ Hsub1) as Hdom1.
    unfold bind at 1 in Hrun. unfold bind at 1 in Hrun. simpl in Hrun.
    rewrite Hchan in Hrun. unfold ret at 1 in Hrun.
    apply (IH h1 (cleaned ++ merged) cleaned' h'); [by transitivity h| | |done].
    + rewrite Forall_app. split.
      * eapply Forall_impl; [exact Hcl|]. set_solver.
      * eapply Forall_impl; [exact Hm|]. set_solver.
    + apply NoDup_app. split; [done|].
      split; [|by eapply clean_channel_h_NoDup].
      intros m Hm1 Hm2. rewrite Forall_forall in Hcl, Hm.
      destruct (Hcl m Hm1) as [Hin _]. destruct (Hm m Hm2) as [_ Hnot]. done.
Qed.

(** X21. The returned list holds pairwise distinct dicts, even when the
    input list names the same dict several times: every emitted programme
    is a copy of its own. *)
Theorem clean_overlaps_h_distinct (h : heap) programmes strategy out h' :
  (forall p, p ∈ programmes -> is_Some (h !! p)) ->
  clean_overlaps_h programmes strategy h = Some (out, h') ->
  NoDup out.
Proof.
  intros Hp. unfold clean_overlaps_h.
  unfold bind at 1. unfold get_heap at 1. unfold bind at 1.
  destruct (foldM _ _ [] h) as [[cl h1]|] eqn:Hfold; [|done].
  unfold bind, get_heap, ret. intros [= <- <-].
  rewrite sort_by_Permutation.
  apply (foldM_channels_NoDup strategy h
           (group_by_key (fun p => channel (h !!! p)) programmes)
           (group_by_key_Forall _ _ _
              (proj2 (Forall_forall _ _)
                 (fun p Hin => proj2 (elem_of_dom h p) (Hp p Hin))))
           h [] cl h1);
    [done|constructor|constructor|exact Hfold].
Qed.

Lemma clean_overlaps_h_distinct_witness :
  NoDup [4%positive; 5%positive].
Proof.
  apply (clean_overlaps_h_distinct
           (<[1%positive := prog "c" 0 50 "A"]>
              (<[2%positive := prog "c" 30 80 "B"]> ∅))
           [1%positive; 2%positive; 1%positive] "trim"
           [4%positive; 5%positive]
           (<[5%positive := prog "c" 30 80 "B"]>
              (<[4%positive := prog "c" 0 30 "A"]>
                 (<[3%positive := prog "c" 0 50 "A"]>
                    (<[1%positive := prog "c" 0 50 "A"]>
                       (<[2%positive := prog "c" 30 80 "B"]> ∅)))))).
  - intros p Hin.
    repeat (apply elem_of_cons in Hin as [-> | Hin]; [by eexists|]).
    by apply not_elem_of_nil in Hin.
  - vm_compute. reflexivity.
Defined.
